(** * Ignore-region detection of rn-storybook-test

    A shallow embedding of [src/detect-ignore-regions.ts]: the scan of a
    decoded diff image for magenta pixels ([analyzeDiffImage]) and the
    clustering of those pixels into candidate rectangles
    ([findBoundingRectangles]), followed by the properties the
    specification states about the returned region list.

    JavaScript numbers that hold pixel coordinates, counts and sizes are
    integers far below 2^53, so they are modelled as [Z]; the one place
    where the source multiplies by the double [0.1] is modelled with the
    exact binary64 value and round-to-nearest-even (module [JS]). *)

From Stdlib Require Import ZArith List Lia Bool Arith Sorted.
From Stdlib Require DecimalZ DecimalPos.
Import ListNotations.

Local Open Scope Z_scope.

(** ** The JavaScript built-ins the source relies on *)

Module JS.

(** [Math.min(...l)] and [Math.max(...l)] on an array of integers.  On an
    empty array JavaScript answers [Infinity] and [-Infinity]; the source
    reaches both calls with a non-empty array only (after the
    [pixels.length === 0] return, and inside [bandPixels.length > 50]), so
    the value chosen here for [[]] is never observed.  These two functions
    give the value of a call that returns; the [RangeError] an engine throws
    when the array has more elements than it accepts as arguments is
    modelled in module [Engine] below. *)
Definition Math_min (l : list Z) : Z :=
  match l with
  | [] => 0
  | a :: t => fold_left Z.min t a
  end.

Definition Math_max (l : list Z) : Z :=
  match l with
  | [] => 0
  | a :: t => fold_left Z.max t a
  end.

(** [arr.some((elem, index) => ...)]: the callback sees the element and
    its index. *)
Fixpoint some_from {A} (f : A -> nat -> bool) (i : nat) (l : list A) : bool :=
  match l with
  | [] => false
  | a :: t => f a i || some_from f (S i) t
  end.

Definition Array_some {A} (f : A -> nat -> bool) (arr : list A) : bool :=
  some_from f 0%nat arr.

(** [arr.filter((elem, index, arr) => ...)]: the callback sees the element,
    its index and the whole array being filtered. *)
Fixpoint filter_from {A} (f : A -> nat -> bool) (i : nat) (l : list A) : list A :=
  match l with
  | [] => []
  | a :: t =>
      if f a i then a :: filter_from f (S i) t else filter_from f (S i) t
  end.

Definition Array_filter {A} (f : A -> nat -> list A -> bool) (arr : list A)
  : list A :=
  filter_from (fun a i => f a i arr) 0%nat arr.

(** [arr.slice(0, n)]. *)
Definition Array_slice0 {A} (n : nat) (arr : list A) : list A := firstn n arr.

(** A [Map<number, number>]: JavaScript iterates a Map in the order in
    which the keys were first inserted, and [set] on a key already present
    keeps its position.  An association list in insertion order has both
    properties. *)
Definition Map := list (Z * Z).

Fixpoint Map_get (m : Map) (k : Z) : option Z :=
  match m with
  | [] => None
  | (k', v) :: t => if k' =? k then Some v else Map_get t k
  end.

Fixpoint Map_set (m : Map) (k v : Z) : Map :=
  match m with
  | [] => [(k, v)]
  | (k', v') :: t =>
      if k' =? k then (k, v) :: t else (k', v') :: Map_set t k v
  end.

(** [o || 0] for [o] the result of [Map.get]: [undefined] and [0] are the
    falsy cases, and both give [0]. *)
Definition or_zero (o : option Z) : Z :=
  match o with
  | Some v => v
  | None => 0
  end.

(** *** [n * 0.1] in binary64

    The literal [0.1] is the double [tenth * 2^-55].  For a non-negative
    integer [n] the exact product is [n * tenth * 2^-55]; the double
    product is that value rounded to 53 significant bits, ties to even.
    [times_tenth n] returns the pair [(M, s)] standing for
    [M * 2^s * 2^-55]. *)
Definition tenth : Z := 3602879701896397.

Definition round_nearest_even (N s : Z) : Z :=
  let q := N / 2 ^ s in
  let r := N mod 2 ^ s in
  if 2 * r <? 2 ^ s then q
  else if 2 ^ s <? 2 * r then q + 1
  else if Z.even q then q else q + 1.

Definition times_tenth (n : Z) : Z * Z :=
  let N := n * tenth in
  let s := Z.max 0 (Z.log2 N - 52) in
  (round_nearest_even N s, s).

(** [count > n * 0.1] for integers [count] and [n >= 0]. *)
Definition gt_times_tenth (count n : Z) : bool :=
  let '(M, s) := times_tenth n in
  M * 2 ^ s <? count * 2 ^ 55.

(** [ToInt32], and [v << 2] on an integer [v]. *)
Definition toInt32 (v : Z) : Z := (v + 2 ^ 31) mod 2 ^ 32 - 2 ^ 31.

Definition shl2 (v : Z) : Z := toInt32 (Z.shiftl (toInt32 v) 2).

(** [buf[idx]] on a byte buffer: [undefined] outside [0 .. length-1]. *)
Definition index (buf : list Z) (idx : Z) : option Z :=
  if idx <? 0 then None else nth_error buf (Z.to_nat idx).

(** [v > c] and [v < c] where [v] may be [undefined]: comparing
    [undefined] with a number is [false]. *)
Definition gt (v : option Z) (c : Z) : bool :=
  match v with Some a => c <? a | None => false end.

Definition lt (v : option Z) (c : Z) : bool :=
  match v with Some a => a <? c | None => false end.

End JS.

(** ** Data *)

(** The anonymous [{ x: number; y: number }] of the pixel arrays. *)
Module Pixel.
Record t : Type := mk { x : Z; y : Z }.
End Pixel.

(** [interface DiffRegion]. *)
Module DiffRegion.
Record t : Type := mk { x : Z; y : Z; width : Z; height : Z }.

End DiffRegion.

(** What the source reads of a decoded PNG: [png.width], [png.height] and
    the RGBA byte buffer [png.data]. *)
Module PNG.
Record t : Type := mk { width : Z; height : Z; data : list Z }.
End PNG.

(** ** [findBoundingRectangles] *)

Definition len {A} (l : list A) : Z := Z.of_nat (length l).

(** The overall bounding rectangle pushed first. *)
Definition overallRegion (pixels : list Pixel.t) : DiffRegion.t :=
  let allX := map Pixel.x pixels in
  let allY := map Pixel.y pixels in
  let minX := JS.Math_min allX in
  let maxX := JS.Math_max allX in
  let minY := JS.Math_min allY in
  let maxY := JS.Math_max allY in
  DiffRegion.mk minX minY (maxX - minX + 1) (maxY - minY + 1).

(** [Math.floor(p.y / 10) * 10]; [p.y] is an integer, so the floor of the
    quotient is [Z.div]. *)
Definition yBandOf (p : Pixel.t) : Z := Pixel.y p / 10 * 10.

(** The [pixels.forEach] that fills [yGroups]. *)
Definition yGroups (pixels : list Pixel.t) : JS.Map :=
  fold_left
    (fun m p =>
       let yBand := yBandOf p in
       JS.Map_set m yBand (JS.or_zero (JS.Map_get m yBand) + 1))
    pixels [].

(** [pixels.filter((p) => Math.abs(p.y - yBand) < 15)]. *)
Definition bandPixels (pixels : list Pixel.t) (yBand : Z) : list Pixel.t :=
  filter (fun p => Z.abs (Pixel.y p - yBand) <? 15) pixels.

(** The rectangle pushed for a significant band. *)
Definition bandRegion (pixels : list Pixel.t) (imageWidth imageHeight yBand : Z)
  : DiffRegion.t :=
  let bp := bandPixels pixels yBand in
  let bandMinX := JS.Math_min (map Pixel.x bp) in
  let bandMaxX := JS.Math_max (map Pixel.x bp) in
  let bandMinY := JS.Math_min (map Pixel.y bp) in
  let bandMaxY := JS.Math_max (map Pixel.y bp) in
  DiffRegion.mk
    (Z.max 0 (bandMinX - 5))
    (Z.max 0 (bandMinY - 5))
    (Z.min imageWidth (bandMaxX - bandMinX + 11))
    (Z.min imageHeight (bandMaxY - bandMinY + 11)).

(** One iteration of [for (const [yBand, count] of yGroups.entries())]. *)
Definition bandStep (pixels : list Pixel.t) (imageWidth imageHeight : Z)
  (regions : list DiffRegion.t) (entry : Z * Z) : list DiffRegion.t :=
  let '(yBand, count) := entry in
  if JS.gt_times_tenth count (len pixels) then
    if 50 <? len (bandPixels pixels yBand) then
      regions ++ [bandRegion pixels imageWidth imageHeight yBand]
    else regions
  else regions.

(** [regions] as it stands before the two filters. *)
Definition candidateRegions (pixels : list Pixel.t) (imageWidth imageHeight : Z)
  : list DiffRegion.t :=
  fold_left (bandStep pixels imageWidth imageHeight) (yGroups pixels)
    [overallRegion pixels].

Definition area (r : DiffRegion.t) : Z := DiffRegion.width r * DiffRegion.height r.

(** The four comparisons of the containment test: [other] covers [region]. *)
Definition covers (other region : DiffRegion.t) : bool :=
  (DiffRegion.x other <=? DiffRegion.x region) &&
  (DiffRegion.y other <=? DiffRegion.y region) &&
  (DiffRegion.x region + DiffRegion.width region
     <=? DiffRegion.x other + DiffRegion.width other) &&
  (DiffRegion.y region + DiffRegion.height region
     <=? DiffRegion.y other + DiffRegion.height other).

(** The callback of the second [.filter]. *)
Definition notContained (region : DiffRegion.t) (index : nat)
  (arr : list DiffRegion.t) : bool :=
  negb (JS.Array_some
          (fun other otherIndex =>
             negb (Nat.eqb otherIndex index) && covers other region)
          arr).

(** [regions.filter((r) => r.width * r.height > 100)]. *)
Definition areaFiltered (regions : list DiffRegion.t) : list DiffRegion.t :=
  filter (fun r => 100 <? area r) regions.

Definition uniqueRegions (regions : list DiffRegion.t) : list DiffRegion.t :=
  JS.Array_filter notContained (areaFiltered regions).

Definition findBoundingRectangles (pixels : list Pixel.t)
  (imageWidth imageHeight : Z) : list DiffRegion.t :=
  if Nat.eqb (length pixels) 0 then []
  else
    JS.Array_slice0 5
      (uniqueRegions (candidateRegions pixels imageWidth imageHeight)).

(** ** The pixel scan of [analyzeDiffImage] *)

(** [0, 1, ..., n-1], the values of a [for (let i = 0; i < n; i++)] loop. *)
Definition upto (n : Z) : list Z := map Z.of_nat (seq 0 (Z.to_nat n)).

(** The colour test on the pixel at [(x, y)]. *)
Definition isDiffPixel (png : PNG.t) (x y : Z) : bool :=
  let idx := JS.shl2 (PNG.width png * y + x) in
  let r := JS.index (PNG.data png) idx in
  let g := JS.index (PNG.data png) (idx + 1) in
  let b := JS.index (PNG.data png) (idx + 2) in
  let a := JS.index (PNG.data png) (idx + 3) in
  JS.gt a 0 &&
  ((JS.gt r 240 && JS.lt g 50 && JS.gt b 240) ||
   (JS.gt r 200 && JS.lt g 100 && JS.gt b 150) ||
   (JS.gt r 200 && JS.lt g 150 && JS.gt b 200)).

(** The nested [for y] / [for x] loops that fill [diffPixels]. *)
Definition diffPixels (png : PNG.t) : list Pixel.t :=
  flat_map
    (fun y =>
       flat_map
         (fun x => if isDiffPixel png x y then [Pixel.mk x y] else [])
         (upto (PNG.width png)))
    (upto (PNG.height png)).

(** The [regions] field of what [analyzeDiffImage] returns for a decoded
    image.  Reading and decoding the file, the console output and the
    preview image are outside this model; none of them changes [regions]. *)
Definition analyzeDiffImage (png : PNG.t) : list DiffRegion.t :=
  let dp := diffPixels png in
  if Nat.eqb (length dp) 0 then []
  else findBoundingRectangles dp (PNG.width png) (PNG.height png).

(** ** Concrete inputs *)

(** The pixels [(x, y)] for [x0 <= x < x0 + n], in scan order. *)
Definition rowPixels (y x0 : Z) (n : nat) : list Pixel.t :=
  map (fun i => Pixel.mk (x0 + Z.of_nat i) y) (seq 0 n).

(** Every pixel of a [w] by [h] image, in scan order. *)
Definition blockPixels (w h : nat) : list Pixel.t :=
  flat_map (fun j => rowPixels (Z.of_nat j) 0 w) (seq 0 h).

(** The spec's example: a 100 by 100 image whose row 90 is all diff. *)
Definition row90 : list Pixel.t := rowPixels 90 0 100.

(** Row 50 of a 100 by 100 image, diff from column 10 to column 99. *)
Definition row50 : list Pixel.t := rowPixels 50 10 90.

(** Two separate rows of 60 diff pixels in a 100 by 100 image. *)
Definition twoRows : list Pixel.t := rowPixels 10 0 60 ++ rowPixels 80 40 60.

(** Six rows of 60 diff pixels, 30 rows apart, in a 200 by 200 image. *)
Definition sixRows : list Pixel.t :=
  flat_map (fun j => rowPixels (10 + 30 * Z.of_nat j) 10 60) (seq 0 6).

(** A single diff pixel. *)
Definition onePixel : list Pixel.t := [Pixel.mk 3 4].

(** A row of 60 diff pixels and two stray pixels in opposite corners of a
    100 by 100 image. *)
Definition rowAndCorners : list Pixel.t :=
  Pixel.mk 0 0 :: rowPixels 20 20 60 ++ [Pixel.mk 99 99].

(** A decoded image of [w] by [h] opaque pixels: magenta where [marked],
    black elsewhere. *)
Definition raster (w h : Z) (marked : Z -> Z -> bool) : PNG.t :=
  PNG.mk w h
    (flat_map
       (fun y =>
          flat_map
            (fun x => if marked x y then [255; 0; 255; 255] else [0; 0; 0; 255])
            (upto w))
       (upto h)).

(** A 60 by 2 image whose top row is diff from column 6 to column 59. *)
Definition shortRow : PNG.t := raster 60 2 (fun x y => (y =? 0) && (6 <=? x)).

(** A 4 by 4 image without any diff pixel. *)
Definition blackImage : PNG.t := raster 4 4 (fun _ _ => false).

(** ** Specification-level notions *)

(** [r] is the tight bounding box of [pixels]: each side is attained by a
    pixel and no pixel lies outside. *)
Definition tightBoundingBox (pixels : list Pixel.t) (r : DiffRegion.t) : Prop :=
  (exists p, In p pixels /\ Pixel.x p = DiffRegion.x r) /\
  (exists p, In p pixels /\ Pixel.y p = DiffRegion.y r) /\
  (exists p, In p pixels /\ Pixel.x p = DiffRegion.x r + DiffRegion.width r - 1) /\
  (exists p, In p pixels /\ Pixel.y p = DiffRegion.y r + DiffRegion.height r - 1) /\
  (forall p, In p pixels ->
     DiffRegion.x r <= Pixel.x p < DiffRegion.x r + DiffRegion.width r /\
     DiffRegion.y r <= Pixel.y p < DiffRegion.y r + DiffRegion.height r).

(** Every pixel lies inside a [w] by [h] image. *)
Definition inBounds (w h : Z) (pixels : list Pixel.t) : Prop :=
  forall p, In p pixels -> 0 <= Pixel.x p < w /\ 0 <= Pixel.y p < h.

(** The region lies inside a [w] by [h] image, as the spec's data model
    asks of every Region. *)
Definition withinImage (w h : Z) (r : DiffRegion.t) : Prop :=
  0 <= DiffRegion.x r /\ 0 <= DiffRegion.y r /\
  0 <= DiffRegion.width r /\ 0 <= DiffRegion.height r /\
  DiffRegion.x r + DiffRegion.width r <= w /\
  DiffRegion.y r + DiffRegion.height r <= h.

(** The executable form of [inBounds]. *)
Definition inBoundsb (w h : Z) (pixels : list Pixel.t) : bool :=
  forallb
    (fun p => (0 <=? Pixel.x p) && (Pixel.x p <? w) &&
              (0 <=? Pixel.y p) && (Pixel.y p <? h))
    pixels.

(** The number of pixels whose 10px band starts at [b]. *)
Definition bandCount (pixels : list Pixel.t) (b : Z) : Z :=
  len (filter (fun p => yBandOf p =? b) pixels).

(** The band rectangles in the order the loop pushes them. *)
Definition bandCandidates (pixels : list Pixel.t) (imageWidth imageHeight : Z)
  : list DiffRegion.t :=
  flat_map (bandStep pixels imageWidth imageHeight []) (yGroups pixels).

(** ** Notions used for the scan *)

(** Scan order: row by row, and left to right within a row. *)
Definition scanBefore (p q : Pixel.t) : Prop :=
  Pixel.y p < Pixel.y q \/ (Pixel.y p = Pixel.y q /\ Pixel.x p < Pixel.x q).

(** The region contains the pixel. *)
Definition containsPixel (r : DiffRegion.t) (p : Pixel.t) : Prop :=
  DiffRegion.x r <= Pixel.x p < DiffRegion.x r + DiffRegion.width r /\
  DiffRegion.y r <= Pixel.y p < DiffRegion.y r + DiffRegion.height r.

(** ** JavaScript strings and the built-ins used on them *)

Module Str.

(** A string is the sequence of its UTF-16 code units. *)
Definition t : Type := list N.

Definition comma : N := 44.
Definition semicolon : N := 59.
Definition minus : N := 45.
Definition plus : N := 43.

(** White space and line terminators, the code units that [trim] and
    [parseInt] strip: TAB, LF, VT, FF, CR, SP, NBSP, U+1680,
    U+2000..U+200A, U+2028, U+2029, U+202F, U+205F, U+3000, U+FEFF. *)
Definition isWhiteSpace (c : N) : bool :=
  ((9 <=? c) && (c <=? 13) || (c =? 32) || (c =? 160) || (c =? 5760) ||
   (8192 <=? c) && (c <=? 8202) || (c =? 8232) || (c =? 8233) ||
   (c =? 8239) || (c =? 8287) || (c =? 12288) || (c =? 65279))%N.

Fixpoint trimStart (s : t) : t :=
  match s with
  | [] => []
  | c :: rest => if isWhiteSpace c then trimStart rest else s
  end.

Definition trimEnd (s : t) : t := rev (trimStart (rev s)).

(** [s.trim()]. *)
Definition trim (s : t) : t := trimEnd (trimStart s).

(** [s.split(sep)] for a separator of one code unit: the empty string
    splits into one empty piece. *)
Fixpoint split (sep : N) (s : t) : list t :=
  match s with
  | [] => [[]]
  | c :: rest =>
      if (c =? sep)%N then [] :: split sep rest
      else
        match split sep rest with
        | piece :: pieces => (c :: piece) :: pieces
        | [] => [[c]]
        end
  end.

(** [arr.join(sep)] on an array of strings. *)
Fixpoint join (sep : N) (arr : list t) : t :=
  match arr with
  | [] => []
  | [a] => a
  | a :: rest => a ++ sep :: join sep rest
  end.

(** The decimal digit a code unit stands for. *)
Definition digit (c : N) : option (Decimal.uint -> Decimal.uint) :=
  (if c =? 48 then Some Decimal.D0 else if c =? 49 then Some Decimal.D1
   else if c =? 50 then Some Decimal.D2 else if c =? 51 then Some Decimal.D3
   else if c =? 52 then Some Decimal.D4 else if c =? 53 then Some Decimal.D5
   else if c =? 54 then Some Decimal.D6 else if c =? 55 then Some Decimal.D7
   else if c =? 56 then Some Decimal.D8 else if c =? 57 then Some Decimal.D9
   else None)%N.

(** The longest prefix of decimal digits. *)
Fixpoint leadingDigits (s : t) : Decimal.uint :=
  match s with
  | [] => Decimal.Nil
  | c :: rest =>
      match digit c with
      | Some d => d (leadingDigits rest)
      | None => Decimal.Nil
      end
  end.

(** [parseInt(s, 10)]: leading white space is skipped, one sign is read,
    then the longest prefix of digits; what follows is ignored.  [None] is
    [NaN], answered when there is no digit.  The result here is the
    mathematical value of the digits; JavaScript returns the double nearest
    to it, which is the same integer up to [2^53] ([-0] is not told from
    [0]). *)
Definition parseInt (s : t) : option Z :=
  let trimmed := trimStart s in
  let '(negative, unsigned) :=
    match trimmed with
    | c :: rest =>
        if (c =? minus)%N then (true, rest)
        else if (c =? plus)%N then (false, rest)
        else (false, trimmed)
    | [] => (false, [])
    end in
  match leadingDigits unsigned with
  | Decimal.Nil => None
  | d => Some (if negative then - Z.of_uint d else Z.of_uint d)
  end.

Fixpoint digits (d : Decimal.uint) : t :=
  (match d with
   | Decimal.Nil => []
   | Decimal.D0 d => 48 :: digits d
   | Decimal.D1 d => 49 :: digits d
   | Decimal.D2 d => 50 :: digits d
   | Decimal.D3 d => 51 :: digits d
   | Decimal.D4 d => 52 :: digits d
   | Decimal.D5 d => 53 :: digits d
   | Decimal.D6 d => 54 :: digits d
   | Decimal.D7 d => 55 :: digits d
   | Decimal.D8 d => 56 :: digits d
   | Decimal.D9 d => 57 :: digits d
   end)%N.

(** The string a template literal inserts for an integer below [10^21] in
    absolute value: its decimal digits, after a [-] when negative. *)
Definition ofNumber (z : Z) : t :=
  match Z.to_int z with
  | Decimal.Pos d => digits d
  | Decimal.Neg d => minus :: digits d
  end.

End Str.

(** ** The suggested [--ignore-regions] value and its consumer *)

(** [`${region.x},${region.y},${region.width},${region.height}`]. *)
Definition regionStr (region : DiffRegion.t) : Str.t :=
  Str.ofNumber (DiffRegion.x region) ++ Str.comma ::
  Str.ofNumber (DiffRegion.y region) ++ Str.comma ::
  Str.ofNumber (DiffRegion.width region) ++ Str.comma ::
  Str.ofNumber (DiffRegion.height region).

(** [regions.map(...).join(';')] of [run]. *)
Definition regionsStr (regions : list DiffRegion.t) : Str.t :=
  Str.join Str.semicolon (map regionStr regions).

Definition isNaN (v : option Z) : bool :=
  match v with Some _ => false | None => true end.

(** The callback of [regionsStr.split(";").map(...)] in
    [parseIgnoreRegions]; [None] stands for the [throw]. *)
Definition parseRegion (regionStr : Str.t) : option DiffRegion.t :=
  let parts :=
    map (fun part => Str.parseInt (Str.trim part))
      (Str.split Str.comma (Str.trim regionStr)) in
  if negb (Nat.eqb (length parts) 4) || existsb isNaN parts then None
  else
    match parts with
    | [Some x; Some y; Some width; Some height] =>
        Some (DiffRegion.mk x y width height)
    | _ => None
    end.

(** [arr.map(f)] where [f] may throw: the first throw aborts the map. *)
Fixpoint mapOrThrow {A B} (f : A -> option B) (arr : list A) : option (list B) :=
  match arr with
  | [] => Some []
  | a :: rest =>
      match f a with
      | None => None
      | Some b =>
          match mapOrThrow f rest with
          | None => None
          | Some bs => Some (b :: bs)
          end
      end
  end.

(** [parseIgnoreRegions]: the [catch] turns any throw into [[]]. *)
Definition parseIgnoreRegions (regionsStr : Str.t) : list DiffRegion.t :=
  if Nat.eqb (length regionsStr) 0 || Nat.eqb (length (Str.trim regionsStr)) 0
  then []
  else
    match mapOrThrow parseRegion (Str.split Str.semicolon regionsStr) with
    | Some regions => regions
    | None => []
    end.

(** The boxes [{x1, y1, x2, y2}] handed to odiff. *)
Module Box.
Record t : Type := mk { x1 : Z; y1 : Z; x2 : Z; y2 : Z }.
End Box.

(** The sums are the exact integers; JavaScript adds doubles, and gives
    the same numbers as long as the sums do not exceed [2^53]. *)
Definition convertIgnoreRegions (regions : list DiffRegion.t) : list Box.t :=
  map
    (fun region =>
       Box.mk (DiffRegion.x region) (DiffRegion.y region)
         (DiffRegion.x region + DiffRegion.width region)
         (DiffRegion.y region + DiffRegion.height region))
    regions.

(** [validRegions] of [compareImage]; [None] is an [ignoreRegions] option
    left [undefined]. *)
Definition validRegions (ignoreRegions : option (list DiffRegion.t))
  : list DiffRegion.t :=
  match ignoreRegions with
  | Some regions =>
      filter
        (fun region =>
           (0 <=? DiffRegion.x region) && (0 <=? DiffRegion.y region) &&
           (0 <? DiffRegion.width region) && (0 <? DiffRegion.height region))
        regions
  | None => []
  end.

(** The [ignoreRegions] entry of the options object that [compareWithOdiff]
    builds: absent ([None]) unless there is a valid region. *)
Definition odiffIgnoreRegions (ignoreRegions : option (list DiffRegion.t))
  : option (list Box.t) :=
  let valid := validRegions ignoreRegions in
  let passed := if 0 <? len valid then Some valid else None in
  match passed with
  | Some regions =>
      if 0 <? len regions then Some (convertIgnoreRegions regions) else None
  | None => None
  end.

(** Integers that a JavaScript number holds exactly. *)
Definition safeInteger (z : Z) : Prop := - 2 ^ 53 <= z <= 2 ^ 53.

Definition safeRegion (r : DiffRegion.t) : Prop :=
  safeInteger (DiffRegion.x r) /\ safeInteger (DiffRegion.y r) /\
  safeInteger (DiffRegion.width r) /\ safeInteger (DiffRegion.height r).

(** ** The border drawing of [generatePreviewImage] *)

(** [buf[idx] = v] on a byte buffer, for a byte [v]: an index outside
    [0 .. length-1] leaves the buffer as it is. *)
Fixpoint set_nth (buf : list Z) (n : nat) (v : Z) : list Z :=
  match buf, n with
  | [], _ => []
  | _ :: rest, O => v :: rest
  | b :: rest, S n => b :: set_nth rest n v
  end.

Definition Buffer_set (buf : list Z) (idx v : Z) : list Z :=
  if idx <? 0 then buf else set_nth buf (Z.to_nat idx) v.

(** The four assignments that paint the pixel at [(x, y)] opaque red. *)
Definition paintRed (width : Z) (data : list Z) (p : Pixel.t) : list Z :=
  let idx := JS.shl2 (width * Pixel.y p + Pixel.x p) in
  let data := Buffer_set data idx 255 in
  let data := Buffer_set data (idx + 1) 0 in
  let data := Buffer_set data (idx + 2) 0 in
  Buffer_set data (idx + 3) 255.

(** [lo, lo+1, ..., hi-1], the values of a [for (let v = lo; v < hi; v++)]
    loop. *)
Definition range (lo hi : Z) : list Z :=
  map (fun i => lo + Z.of_nat i) (seq 0 (Z.to_nat (hi - lo))).

(** The pixels painted for one [x] of the top-and-bottom loop, in order. *)
Definition topBottom (width height : Z) (region : DiffRegion.t) (x : Z)
  : list Pixel.t :=
  (if (0 <=? DiffRegion.y region) && (DiffRegion.y region <? height) then
     flat_map
       (fun i =>
          let y := DiffRegion.y region + i in
          if y <? height then [Pixel.mk x y] else [])
       [0; 1]
   else []) ++
  (let bottomY := DiffRegion.y region + DiffRegion.height region - 1 in
   if (0 <=? bottomY) && (bottomY <? height) then
     flat_map
       (fun i =>
          let y := bottomY - i in
          if (0 <=? y) && (y <? height) then [Pixel.mk x y] else [])
       [0; 1]
   else []).

(** The pixels painted for one [y] of the left-and-right loop, in order. *)
Definition leftRight (width height : Z) (region : DiffRegion.t) (y : Z)
  : list Pixel.t :=
  (if (0 <=? DiffRegion.x region) && (DiffRegion.x region <? width) then
     flat_map
       (fun i =>
          let x := DiffRegion.x region + i in
          if x <? width then [Pixel.mk x y] else [])
       [0; 1]
   else []) ++
  (let rightX := DiffRegion.x region + DiffRegion.width region - 1 in
   if (0 <=? rightX) && (rightX <? width) then
     flat_map
       (fun i =>
          let x := rightX - i in
          if (0 <=? x) && (x <? width) then [Pixel.mk x y] else [])
       [0; 1]
   else []).

(** All pixels painted for one region: the loop over [x] bounded by
    [x < region.x + region.width && x < png.width], then the loop over [y]
    bounded by [y < region.y + region.height && y < png.height]. *)
Definition strokes (width height : Z) (region : DiffRegion.t) : list Pixel.t :=
  flat_map (topBottom width height region)
    (range (DiffRegion.x region)
       (Z.min (DiffRegion.x region + DiffRegion.width region) width)) ++
  flat_map (leftRight width height region)
    (range (DiffRegion.y region)
       (Z.min (DiffRegion.y region + DiffRegion.height region) height)).

(** The [regions.forEach] of [generatePreviewImage], acting on the buffer
    [previewPng.data] of an image of the given width and height. *)
Definition drawRegions (width height : Z) (regions : list DiffRegion.t)
  (data : list Z) : list Z :=
  fold_left (paintRed width) (flat_map (strokes width height) regions) data.

(** Byte [c] of the pixel at [(x, y)] in a row-major RGBA buffer. *)
Definition byteAt (width : Z) (data : list Z) (p : Pixel.t) (c : nat)
  : option Z :=
  nth_error data (Z.to_nat (4 * (width * Pixel.y p + Pixel.x p)) + c).

(** The pixel is within two pixels of an edge of the region. *)
Definition nearEdge (r : DiffRegion.t) (p : Pixel.t) : Prop :=
  Pixel.x p < DiffRegion.x r + 2 \/
  DiffRegion.x r + DiffRegion.width r - 2 <= Pixel.x p \/
  Pixel.y p < DiffRegion.y r + 2 \/
  DiffRegion.y r + DiffRegion.height r - 2 <= Pixel.y p.

(** ** The tally of [compareScreenshots] and the verdict of the command *)

Inductive Status : Type := Match | Differ | MissingBaseline.

(** An entry of [details]; [diffPath] is left out. *)
Module Detail.
Record t : Type := mk { filename : Str.t; status : Status }.
End Detail.

Module ComparisonResult.
Record t : Type := mk {
  total : Z;
  matches : Z;
  differences : Z;
  missingBaselines : Z;
  details : list Detail.t
}.
End ComparisonResult.

(** The callback of [comparisonResults.forEach]. *)
Definition processDetail (result : ComparisonResult.t) (detail : Detail.t)
  : ComparisonResult.t :=
  let result :=
    ComparisonResult.mk
      (ComparisonResult.total result) (ComparisonResult.matches result)
      (ComparisonResult.differences result)
      (ComparisonResult.missingBaselines result)
      (ComparisonResult.details result ++ [detail]) in
  match Detail.status detail with
  | Match =>
      ComparisonResult.mk
        (ComparisonResult.total result) (ComparisonResult.matches result + 1)
        (ComparisonResult.differences result)
        (ComparisonResult.missingBaselines result)
        (ComparisonResult.details result)
  | Differ =>
      ComparisonResult.mk
        (ComparisonResult.total result) (ComparisonResult.matches result)
        (ComparisonResult.differences result + 1)
        (ComparisonResult.missingBaselines result)
        (ComparisonResult.details result)
  | MissingBaseline =>
      ComparisonResult.mk
        (ComparisonResult.total result) (ComparisonResult.matches result)
        (ComparisonResult.differences result)
        (ComparisonResult.missingBaselines result + 1)
        (ComparisonResult.details result)
  end.

(** What [compareScreenshots] returns for the screenshot files found, given
    the outcome [compareImage] of comparing each one (which reads files and
    runs odiff). *)
Definition compareScreenshots (compareImage : Str.t -> Detail.t)
  (screenshots : list Str.t) : ComparisonResult.t :=
  let result := ComparisonResult.mk (len screenshots) 0 0 0 [] in
  let comparisonResults := map compareImage screenshots in
  fold_left processDetail comparisonResults result.


(** Code units that are neither white space nor a separator. *)
Definition plainUnit (c : N) : Prop :=
  Str.isWhiteSpace c = false /\ c <> Str.comma /\ c <> Str.semicolon.

(** The pixel lies inside a [w] by [h] image. *)
Definition insideImage (w h : Z) (p : Pixel.t) : Prop :=
  0 <= Pixel.x p < w /\ 0 <= Pixel.y p < h.

(** ** The argument limit of spread calls

    [Math.min(...arr)] passes every element of [arr] as an argument.  An
    engine accepts only so many arguments and throws a [RangeError] beyond
    that; the source has no guard against it, and the [catch] of
    [analyzeDiffImage] then returns no region.  The limit belongs to the
    engine, not to the source, so it is a parameter here: [argLimit] is the
    largest number of arguments the engine accepts.  [None] stands for the
    thrown error. *)

Module Engine.

(** [f(...arr)] for [f] one of [Math.min] and [Math.max]. *)
Definition spread (argLimit : Z) (f : list Z -> Z) (arr : list Z) : option Z :=
  if argLimit <? len arr then None else Some (f arr).

(** The rectangle pushed for a significant band, or the error of one of its
    four spread calls. *)
Definition bandRegion (argLimit : Z) (pixels : list Pixel.t)
  (imageWidth imageHeight yBand : Z) : option DiffRegion.t :=
  let bp := bandPixels pixels yBand in
  match spread argLimit JS.Math_min (map Pixel.x bp) with
  | None => None
  | Some bandMinX =>
  match spread argLimit JS.Math_max (map Pixel.x bp) with
  | None => None
  | Some bandMaxX =>
  match spread argLimit JS.Math_min (map Pixel.y bp) with
  | None => None
  | Some bandMinY =>
  match spread argLimit JS.Math_max (map Pixel.y bp) with
  | None => None
  | Some bandMaxY =>
      Some (DiffRegion.mk
              (Z.max 0 (bandMinX - 5))
              (Z.max 0 (bandMinY - 5))
              (Z.min imageWidth (bandMaxX - bandMinX + 11))
              (Z.min imageHeight (bandMaxY - bandMinY + 11)))
  end end end end.

(** One iteration of the loop over [yGroups.entries()]; after an error no
    further iteration runs. *)
Definition bandStep (argLimit : Z) (pixels : list Pixel.t)
  (imageWidth imageHeight : Z) (regions : option (list DiffRegion.t))
  (entry : Z * Z) : option (list DiffRegion.t) :=
  match regions with
  | None => None
  | Some regions =>
      let '(yBand, count) := entry in
      if JS.gt_times_tenth count (len pixels) then
        if 50 <? len (bandPixels pixels yBand) then
          match bandRegion argLimit pixels imageWidth imageHeight yBand with
          | Some region => Some (regions ++ [region])
          | None => None
          end
        else Some regions
      else Some regions
  end.

(** [findBoundingRectangles] with its errors: [Some] of the returned array,
    or [None] when a spread call throws. *)
Definition findBoundingRectangles (argLimit : Z) (pixels : list Pixel.t)
  (imageWidth imageHeight : Z) : option (list DiffRegion.t) :=
  if Nat.eqb (length pixels) 0 then Some []
  else
    let allX := map Pixel.x pixels in
    let allY := map Pixel.y pixels in
    match spread argLimit JS.Math_min allX with
    | None => None
    | Some minX =>
    match spread argLimit JS.Math_max allX with
    | None => None
    | Some maxX =>
    match spread argLimit JS.Math_min allY with
    | None => None
    | Some minY =>
    match spread argLimit JS.Math_max allY with
    | None => None
    | Some maxY =>
        let regions :=
          [DiffRegion.mk minX minY (maxX - minX + 1) (maxY - minY + 1)] in
        match
          fold_left (bandStep argLimit pixels imageWidth imageHeight)
            (yGroups pixels) (Some regions)
        with
        | None => None
        | Some regions => Some (JS.Array_slice0 5 (uniqueRegions regions))
        end
    end end end end.

(** The [regions] that [analyzeDiffImage] returns for a decoded image: the
    [catch] answers an error of [findBoundingRectangles] with
    [{ regions: [] }]. *)
Definition analyzeDiffImage (argLimit : Z) (png : PNG.t) : list DiffRegion.t :=
  let dp := diffPixels png in
  if Nat.eqb (length dp) 0 then []
  else
    match findBoundingRectangles argLimit dp (PNG.width png) (PNG.height png) with
    | Some regions => regions
    | None => []
    end.

End Engine.

(** The box [t] padded by 5px on every side, its corner floored at 0 and
    its width and height capped at the image's. *)
Definition padded (imageWidth imageHeight : Z) (t : DiffRegion.t) : DiffRegion.t :=
  DiffRegion.mk
    (Z.max 0 (DiffRegion.x t - 5))
    (Z.max 0 (DiffRegion.y t - 5))
    (Z.min imageWidth (DiffRegion.width t + 10))
    (Z.min imageHeight (DiffRegion.height t + 10)).

(** A dense 20 by 20 block of diff pixels with its corner at (40, 40). *)
Definition denseCluster : list Pixel.t :=
  map (fun p => Pixel.mk (Pixel.x p + 40) (Pixel.y p + 40)) (blockPixels 20 20).

(** The region's two sums are integers a JavaScript number holds exactly. *)
Definition exactSums (r : DiffRegion.t) : Prop :=
  DiffRegion.x r + DiffRegion.width r <= 2 ^ 53 /\
  DiffRegion.y r + DiffRegion.height r <= 2 ^ 53.

(** ** Lemmas on the JavaScript built-ins *)

Section ArrayLemmas.
Context {A : Type}.
Variable f : A -> nat -> bool.

Lemma some_from_false (l : list A) (k : nat) :
  JS.some_from f k l = false ->
  forall j b, nth_error l j = Some b -> f b (k + j)%nat = false.
Proof.
  revert k; induction l as [|a t IH]; intros k H j b Hj.
  - destruct j; discriminate.
  - cbn in H. apply orb_false_iff in H as [Ha Ht].
    destruct j as [|j]; cbn in Hj.
    + injection Hj as <-. now rewrite Nat.add_0_r.
    + rewrite Nat.add_succ_r. apply (IH (S k) Ht j b Hj).
Qed.

Lemma some_from_false_intro (l : list A) (k : nat) :
  (forall j b, nth_error l j = Some b -> f b (k + j)%nat = false) ->
  JS.some_from f k l = false.
Proof.
  revert k; induction l as [|a t IH]; intros k H; cbn; [reflexivity|].
  apply orb_false_iff; split.
  - specialize (H 0%nat a eq_refl). now rewrite Nat.add_0_r in H.
  - apply IH. intros j b Hj. specialize (H (S j) b Hj).
    now rewrite Nat.add_succ_r in H.
Qed.

Lemma filter_from_In (l : list A) (k : nat) (a : A) :
  In a (JS.filter_from f k l) ->
  exists i, nth_error l i = Some a /\ f a (k + i)%nat = true.
Proof.
  revert k; induction l as [|b t IH]; intros k H; cbn in H; [contradiction|].
  destruct (f b k) eqn:Hb.
  - destruct H as [<-|H].
    + exists 0%nat. now rewrite Nat.add_0_r.
    + destruct (IH _ H) as [i [Hi Hf]]. exists (S i).
      now rewrite Nat.add_succ_r.
  - destruct (IH _ H) as [i [Hi Hf]]. exists (S i).
    now rewrite Nat.add_succ_r.
Qed.

Lemma filter_from_In_intro (l : list A) (k i : nat) (a : A) :
  nth_error l i = Some a -> f a (k + i)%nat = true ->
  In a (JS.filter_from f k l).
Proof.
  revert k i; induction l as [|b t IH]; intros k i Hi Hf.
  - destruct i; discriminate.
  - destruct i as [|i]; cbn in Hi |- *.
    + injection Hi as ->. rewrite Nat.add_0_r in Hf. rewrite Hf. now left.
    + rewrite Nat.add_succ_r in Hf.
      destruct (f b k); [right|]; apply (IH (S k) i Hi Hf).
Qed.

(** Two positions of the filtered array come from two positions of the
    array, in the same order, and both passed the test there. *)
Lemma filter_from_nth2 (l : list A) (k i j : nat) (a b : A) :
  (i < j)%nat ->
  nth_error (JS.filter_from f k l) i = Some a ->
  nth_error (JS.filter_from f k l) j = Some b ->
  exists i' j', (i' < j')%nat /\
    nth_error l i' = Some a /\ nth_error l j' = Some b /\
    f a (k + i')%nat = true /\ f b (k + j')%nat = true.
Proof.
  revert k i j; induction l as [|c t IH]; intros k i j Hij Hi Hj.
  - destruct i; discriminate.
  - cbn in Hi, Hj. destruct (f c k) eqn:Hc.
    + destruct j as [|j]; [lia|]. cbn in Hj.
      destruct i as [|i]; cbn in Hi.
      * injection Hi as <-.
        assert (Hin : In b (JS.filter_from f (S k) t))
          by (eapply nth_error_In; eassumption).
        destruct (filter_from_In _ _ _ Hin) as [j' [Hj' Hf]].
        exists 0%nat, (S j'). rewrite Nat.add_0_r, Nat.add_succ_r.
        repeat split; auto; lia.
      * destruct (IH (S k) i j ltac:(lia) Hi Hj)
          as [i' [j' [Hlt [Ha [Hb [Hfa Hfb]]]]]].
        exists (S i'), (S j'). rewrite !Nat.add_succ_r.
        repeat split; auto; lia.
    + destruct (IH (S k) i j Hij Hi Hj)
        as [i' [j' [Hlt [Ha [Hb [Hfa Hfb]]]]]].
      exists (S i'), (S j'). rewrite !Nat.add_succ_r.
      repeat split; auto; lia.
Qed.

End ArrayLemmas.

Lemma firstn_nth_error {A} (n i : nat) (l : list A) (a : A) :
  nth_error (firstn n l) i = Some a -> nth_error l i = Some a.
Proof.
  revert i l; induction n as [|n IH]; intros i l H.
  - destruct i; discriminate.
  - destruct l as [|b t]; [destruct i; discriminate|].
    destruct i as [|i]; cbn in H |- *; auto.
Qed.

Lemma firstn_In {A} (n : nat) (l : list A) (a : A) :
  In a (firstn n l) -> In a l.
Proof.
  intros H. apply In_nth_error in H as [i Hi].
  eapply nth_error_In, firstn_nth_error; eassumption.
Qed.

Lemma covers_refl (r : DiffRegion.t) : covers r r = true.
Proof. unfold covers. now rewrite !Z.leb_refl. Qed.

(** ** Lemmas on the stages of [findBoundingRectangles] *)

Lemma findBoundingRectangles_nonempty pixels w h :
  pixels <> [] ->
  findBoundingRectangles pixels w h =
  firstn 5 (uniqueRegions (candidateRegions pixels w h)).
Proof.
  intros H. unfold findBoundingRectangles, JS.Array_slice0.
  destruct pixels; [contradiction | reflexivity].
Qed.

(** The loop only appends: the candidates are the overall rectangle followed
    by the band rectangles. *)
Lemma bandStep_app pixels w h acc e :
  bandStep pixels w h acc e = acc ++ bandStep pixels w h [] e.
Proof.
  unfold bandStep. destruct e as [yBand count].
  destruct (JS.gt_times_tenth _ _); [|now rewrite app_nil_r].
  destruct (50 <? _); [reflexivity | now rewrite app_nil_r].
Qed.

Lemma fold_bandStep pixels w h entries acc :
  fold_left (bandStep pixels w h) entries acc =
  acc ++ flat_map (bandStep pixels w h []) entries.
Proof.
  revert acc; induction entries as [|e t IH]; intros acc; cbn.
  - now rewrite app_nil_r.
  - rewrite IH, bandStep_app, <- app_assoc. reflexivity.
Qed.

Lemma candidateRegions_eq pixels w h :
  candidateRegions pixels w h =
  overallRegion pixels :: bandCandidates pixels w h.
Proof. unfold candidateRegions. now rewrite fold_bandStep. Qed.

(** A region of the output sits at some position of the area-filtered array
    and no other position of that array covers it. *)
Lemma uniqueRegions_In regions r :
  In r (uniqueRegions regions) ->
  exists k, nth_error (areaFiltered regions) k = Some r /\
    forall j r', j <> k -> nth_error (areaFiltered regions) j = Some r' ->
      covers r' r = false.
Proof.
  intros H. apply filter_from_In in H as [k [Hk Hf]]. exists k. split; auto.
  intros j r' Hne Hj. cbn in Hf. unfold notContained, JS.Array_some in Hf.
  apply negb_true_iff in Hf.
  pose proof (some_from_false _ _ _ Hf j r' Hj) as H. cbn in H.
  apply andb_false_iff in H as [H|H]; auto.
  apply negb_false_iff, Nat.eqb_eq in H. contradiction.
Qed.

Lemma uniqueRegions_In_intro regions r k :
  nth_error (areaFiltered regions) k = Some r ->
  (forall j r', j <> k -> nth_error (areaFiltered regions) j = Some r' ->
     covers r' r = false) ->
  In r (uniqueRegions regions).
Proof.
  intros Hk H. apply (filter_from_In_intro _ _ 0%nat k r Hk). cbn.
  unfold notContained, JS.Array_some. apply negb_true_iff.
  apply some_from_false_intro. intros j r' Hj. cbn.
  destruct (Nat.eqb j k) eqn:E; [reflexivity|].
  apply Nat.eqb_neq in E. cbn. apply (H j r' E Hj).
Qed.

Lemma areaFiltered_In regions r :
  In r (areaFiltered regions) <-> In r regions /\ 100 < area r.
Proof.
  unfold areaFiltered. rewrite filter_In. now rewrite Z.ltb_lt.
Qed.

(** Every returned region passed the area filter. *)
Lemma output_area pixels w h r :
  In r (findBoundingRectangles pixels w h) -> 100 < area r.
Proof.
  destruct pixels as [|p ps]; [contradiction|].
  rewrite findBoundingRectangles_nonempty by discriminate.
  intros H. apply firstn_In, uniqueRegions_In in H as [k [Hk _]].
  apply nth_error_In, areaFiltered_In in Hk. tauto.
Qed.

(** When the overall rectangle passes the area filter and no band rectangle
    that passes it covers the overall rectangle, the overall rectangle heads
    the output. *)
Lemma overall_heads_output pixels w h :
  pixels <> [] ->
  100 < area (overallRegion pixels) ->
  (forall r, In r (bandCandidates pixels w h) -> 100 < area r ->
     covers r (overallRegion pixels) = false) ->
  exists rest,
    findBoundingRectangles pixels w h = overallRegion pixels :: rest.
Proof.
  intros Hne Ha Hc. rewrite findBoundingRectangles_nonempty by assumption.
  rewrite candidateRegions_eq. unfold uniqueRegions, areaFiltered.
  cbn [filter]. apply Z.ltb_lt in Ha. rewrite Ha.
  unfold JS.Array_filter. cbn [JS.filter_from].
  set (arr := overallRegion pixels :: filter _ _).
  assert (Hk : notContained (overallRegion pixels) 0 arr = true).
  { unfold notContained, JS.Array_some. apply negb_true_iff.
    apply some_from_false_intro. intros j r' Hj.
    destruct j as [|j]; [reflexivity|]. cbn in Hj |- *.
    apply nth_error_In, filter_In in Hj as [Hin Har].
    apply Hc; [assumption | now apply Z.ltb_lt]. }
  rewrite Hk. cbn. eauto.
Qed.

(** Conversely, the overall rectangle is returned only under those two
    conditions. *)
Lemma overall_in_output_inv pixels w h :
  pixels <> [] ->
  In (overallRegion pixels) (findBoundingRectangles pixels w h) ->
  100 < area (overallRegion pixels) /\
  (forall r, In r (bandCandidates pixels w h) -> 100 < area r ->
     covers r (overallRegion pixels) = false).
Proof.
  intros Hne Hin. pose proof (output_area _ _ _ _ Hin) as Ha. split; auto.
  rewrite findBoundingRectangles_nonempty in Hin by assumption.
  apply firstn_In, uniqueRegions_In in Hin as [k [Hk Hoth]].
  rewrite candidateRegions_eq in Hk, Hoth. unfold areaFiltered in Hk, Hoth.
  cbn [filter] in Hk, Hoth. apply Z.ltb_lt in Ha. rewrite Ha in Hk, Hoth.
  destruct k as [|k].
  - intros r Hr Har.
    assert (Hf : In r (filter (fun r => 100 <? area r) (bandCandidates pixels w h)))
      by (apply filter_In; split; [assumption | now apply Z.ltb_lt]).
    apply In_nth_error in Hf as [j Hj].
    apply (Hoth (S j) r); [discriminate | exact Hj].
  - specialize (Hoth 0%nat (overallRegion pixels) ltac:(discriminate) eq_refl).
    rewrite covers_refl in Hoth. discriminate.
Qed.

(** [Math.min] and [Math.max] on a non-empty array: an element of the array
    that bounds all of them. *)
Lemma fold_min_spec (t : list Z) (a : Z) :
  In (fold_left Z.min t a) (a :: t) /\
  forall b, In b (a :: t) -> fold_left Z.min t a <= b.
Proof.
  revert a; induction t as [|c t IH]; intros a; cbn.
  - split; [now left | intros b [<-|[]]; lia].
  - destruct (IH (Z.min a c)) as [Hin Hle]. split.
    + destruct Hin as [Hin|Hin]; [|now right; right].
      rewrite <- Hin. destruct (Z.min_spec a c) as [[_ ->]|[_ ->]]; auto.
    + intros b Hb.
      assert (H1 : fold_left Z.min t (Z.min a c) <= Z.min a c)
        by (apply Hle; now left).
      destruct Hb as [<-|[<-|Hb]]; [lia | lia |].
      apply Hle. now right.
Qed.

Lemma fold_max_spec (t : list Z) (a : Z) :
  In (fold_left Z.max t a) (a :: t) /\
  forall b, In b (a :: t) -> b <= fold_left Z.max t a.
Proof.
  revert a; induction t as [|c t IH]; intros a; cbn.
  - split; [now left | intros b [<-|[]]; lia].
  - destruct (IH (Z.max a c)) as [Hin Hle]. split.
    + destruct Hin as [Hin|Hin]; [|now right; right].
      rewrite <- Hin. destruct (Z.max_spec a c) as [[_ ->]|[_ ->]]; auto.
    + intros b Hb.
      assert (H1 : Z.max a c <= fold_left Z.max t (Z.max a c))
        by (apply Hle; now left).
      destruct Hb as [<-|[<-|Hb]]; [lia | lia |].
      apply Hle. now right.
Qed.

Lemma Math_min_spec (l : list Z) :
  l <> [] ->
  In (JS.Math_min l) l /\ forall b, In b l -> JS.Math_min l <= b.
Proof. destruct l; [contradiction | intros _; apply fold_min_spec]. Qed.

Lemma Math_max_spec (l : list Z) :
  l <> [] ->
  In (JS.Math_max l) l /\ forall b, In b l -> b <= JS.Math_max l.
Proof. destruct l; [contradiction | intros _; apply fold_max_spec]. Qed.

(** The first candidate is the tight bounding box of the pixels. *)
Lemma overallRegion_tight pixels :
  pixels <> [] -> tightBoundingBox pixels (overallRegion pixels).
Proof.
  intros Hne.
  assert (Hx : map Pixel.x pixels <> []) by (destruct pixels; [contradiction | discriminate]).
  assert (Hy : map Pixel.y pixels <> []) by (destruct pixels; [contradiction | discriminate]).
  destruct (Math_min_spec _ Hx) as [Hminx Hlex].
  destruct (Math_max_spec _ Hx) as [Hmaxx Hgex].
  destruct (Math_min_spec _ Hy) as [Hminy Hley].
  destruct (Math_max_spec _ Hy) as [Hmaxy Hgey].
  apply in_map_iff in Hminx as [p1 [E1 I1]], Hmaxx as [p2 [E2 I2]],
    Hminy as [p3 [E3 I3]], Hmaxy as [p4 [E4 I4]].
  unfold tightBoundingBox, overallRegion; cbn.
  repeat split.
  - now exists p1.
  - now exists p3.
  - exists p2. split; [assumption | lia].
  - exists p4. split; [assumption | lia].
  - apply Hlex, in_map, H.
  - specialize (Hgex _ (in_map Pixel.x _ _ H)). lia.
  - apply Hley, in_map, H.
  - specialize (Hgey _ (in_map Pixel.y _ _ H)). lia.
Qed.

(** ** The 10% threshold

    [count > pixels.length * 0.1] is computed in binary64.  For every
    array length JavaScript allows (below [2^32]) the rounded product
    decides the comparison exactly as the integers do. *)

Lemma round_nearest_even_bounds (N s : Z) :
  0 <= s -> 0 <= N ->
  N / 2 ^ s <= JS.round_nearest_even N s /\
  2 * (JS.round_nearest_even N s * 2 ^ s) <= 2 * N + 2 ^ s.
Proof.
  intros Hs HN. unfold JS.round_nearest_even.
  assert (HP : 0 < 2 ^ s) by (apply Z.pow_pos_nonneg; lia).
  pose proof (Z.div_mod N (2 ^ s) ltac:(lia)) as Hdm.
  pose proof (Z.mod_pos_bound N (2 ^ s) HP) as Hr.
  set (P := 2 ^ s) in *. set (q := N / P) in *. set (r := N mod P) in *.
  destruct (Z.ltb_spec (2 * r) P); [split; nia|].
  destruct (Z.ltb_spec P (2 * r)); [split; nia|].
  destruct (Z.even q); split; nia.
Qed.

Lemma gt_times_tenth_exact (count n : Z) :
  0 <= n < 2 ^ 32 ->
  JS.gt_times_tenth count n = (n <? 10 * count).
Proof.
  intros [Hn0 Hn]. unfold JS.gt_times_tenth, JS.times_tenth.
  set (N := n * JS.tenth). set (s := Z.max 0 (Z.log2 N - 52)).
  assert (HN0 : 0 <= N) by (unfold N, JS.tenth; lia).
  assert (HN10 : 10 * N = n * 36028797018963968 + 2 * n)
    by (unfold N, JS.tenth; lia).
  assert (Hs0 : 0 <= s) by lia.
  assert (Hs55 : s <= 55).
  { destruct (Z.eq_dec N 0) as [E|E].
    - unfold s. rewrite E. cbn. lia.
    - assert (Z.log2 N < 84); [|lia].
      apply Z.log2_lt_pow2; [lia|]. change (2 ^ 32) with 4294967296 in Hn.
      change (2 ^ 84) with 19342813113834066795298816. lia. }
  assert (HP : 2 ^ s <= Z.max 1 n).
  { destruct (Z.le_gt_cases (Z.log2 N) 52) as [L|L].
    - replace s with 0 by lia. cbn. lia.
    - assert (Npos : 0 < N).
      { destruct (Z.eq_dec N 0) as [E|E]; [|lia]. rewrite E in L. cbn in L. lia. }
      destruct (Z.log2_spec N Npos) as [Hlo _].
      replace (Z.log2 N) with (s + 52) in Hlo by lia.
      rewrite Z.pow_add_r in Hlo by lia.
      change (2 ^ 52) with 4503599627370496 in Hlo.
      assert (N < n * 4503599627370496) by (unfold N, JS.tenth; lia).
      lia. }
  destruct (round_nearest_even_bounds N s Hs0 HN0) as [Hq Hup].
  assert (H55 : 2 ^ 55 = 2 ^ s * 2 ^ (55 - s))
    by (rewrite <- Z.pow_add_r by lia; f_equal; lia).
  assert (HPpos : 0 < 2 ^ s) by (apply Z.pow_pos_nonneg; lia).
  set (M := JS.round_nearest_even N s) in *. set (P := 2 ^ s) in *.
  destruct (Z.ltb_spec n (10 * count)) as [Hc|Hc];
    destruct (Z.ltb_spec (M * P) (count * 2 ^ 55)) as [Hm|Hm];
    try reflexivity; exfalso.
  - change (2 ^ 55) with 36028797018963968 in Hm.
    change (2 ^ 32) with 4294967296 in Hn. lia.
  - assert (Hlow : count * 2 ^ (55 - s) <= N / P).
    { apply Z.div_le_lower_bound; [assumption|].
      replace (P * (count * 2 ^ (55 - s))) with (count * 2 ^ 55)
        by (rewrite H55; ring).
      change (2 ^ 55) with 36028797018963968. lia. }
    rewrite H55 in Hm.
    assert (count * 2 ^ (55 - s) <= M) by lia.
    nia.
Qed.

(** ** The band counts kept in [yGroups] *)

Lemma Map_get_set (m : JS.Map) (k v k' : Z) :
  JS.Map_get (JS.Map_set m k v) k' =
  if k =? k' then Some v else JS.Map_get m k'.
Proof.
  induction m as [|[k0 v0] t IH]; cbn.
  - reflexivity.
  - destruct (Z.eqb_spec k0 k) as [->|Hne]; cbn.
    + destruct (Z.eqb_spec k k'); reflexivity.
    + rewrite IH. destruct (Z.eqb_spec k0 k') as [->|]; [|reflexivity].
      destruct (Z.eqb_spec k k'); [congruence | reflexivity].
Qed.

Lemma Map_get_In (m : JS.Map) (k v : Z) :
  JS.Map_get m k = Some v -> In (k, v) m.
Proof.
  induction m as [|[k0 v0] t IH]; cbn; [discriminate|].
  destruct (Z.eqb_spec k0 k) as [->|]; intros H.
  - injection H as ->. now left.
  - right. auto.
Qed.

Lemma yGroups_fold (pixels : list Pixel.t) (m : JS.Map) (b : Z) :
  JS.Map_get
    (fold_left
       (fun m p =>
          JS.Map_set m (yBandOf p) (JS.or_zero (JS.Map_get m (yBandOf p)) + 1))
       pixels m) b =
  match JS.Map_get m b with
  | Some v => Some (v + bandCount pixels b)
  | None => if bandCount pixels b =? 0 then None else Some (bandCount pixels b)
  end.
Proof.
  revert m; induction pixels as [|p ps IH]; intros m.
  - cbn. destruct (JS.Map_get m b); [f_equal; lia | reflexivity].
  - cbn [fold_left]. rewrite IH, Map_get_set.
    unfold bandCount, len in *. cbn [filter].
    destruct (Z.eqb_spec (yBandOf p) b) as [->|Hne].
    + cbn [length]. rewrite Nat2Z.inj_succ.
      destruct (JS.Map_get m b); cbn [JS.or_zero]; [f_equal; lia|].
      destruct (Z.eqb_spec (Z.succ (Z.of_nat (length (filter (fun p0 => yBandOf p0 =? b) ps)))) 0);
        [lia | f_equal; lia].
    + reflexivity.
Qed.

(** A band with at least one pixel has its pixel count in [yGroups]. *)
Lemma yGroups_count (pixels : list Pixel.t) (b : Z) :
  0 < bandCount pixels b ->
  In (b, bandCount pixels b) (yGroups pixels).
Proof.
  intros H. apply Map_get_In. unfold yGroups. rewrite yGroups_fold. cbn.
  destruct (Z.eqb_spec (bandCount pixels b) 0); [lia | reflexivity].
Qed.

(** ** Band rectangles *)

Lemma bandCandidates_inv pixels w h r :
  In r (bandCandidates pixels w h) ->
  exists b, r = bandRegion pixels w h b /\ 50 < len (bandPixels pixels b).
Proof.
  unfold bandCandidates. rewrite in_flat_map. intros [[b c] [_ H]].
  unfold bandStep in H. destruct (JS.gt_times_tenth _ _); [|contradiction].
  destruct (Z.ltb_spec 50 (len (bandPixels pixels b))); [|contradiction].
  destruct H as [<-|[]]. eauto.
Qed.

(** A band holding more than a tenth of the pixels, with more than 50 pixels
    in its vicinity, contributes its rectangle. *)
Lemma bandCandidates_intro pixels w h b :
  len pixels < 2 ^ 32 ->
  len pixels < 10 * bandCount pixels b ->
  50 < len (bandPixels pixels b) ->
  In (bandRegion pixels w h b) (bandCandidates pixels w h).
Proof.
  intros Hlen Hten Hmin. unfold bandCandidates. apply in_flat_map.
  exists (b, bandCount pixels b). split.
  - apply yGroups_count. unfold len in *. lia.
  - unfold bandStep. rewrite gt_times_tenth_exact by (unfold len in *; lia).
    apply Z.ltb_lt in Hten, Hmin. rewrite Hten, Hmin. now left.
Qed.

Lemma len_pos_nonempty {A} (l : list A) : 0 < len l -> l <> [].
Proof. destruct l; [cbn; lia | discriminate]. Qed.

(** The band rectangle reaches 5px beyond the pixels of the vicinity on the
    left and on top, and covers all of them. *)
Lemma bandRegion_covers pixels w h b p :
  inBounds w h pixels ->
  In p pixels -> Z.abs (Pixel.y p - b) < 15 ->
  let r := bandRegion pixels w h b in
  DiffRegion.x r <= Pixel.x p < DiffRegion.x r + DiffRegion.width r /\
  DiffRegion.y r <= Pixel.y p < DiffRegion.y r + DiffRegion.height r.
Proof.
  intros Hb Hp Hv.
  assert (Hin : In p (bandPixels pixels b))
    by (apply filter_In; split; [assumption | now apply Z.ltb_lt]).
  assert (Hx : map Pixel.x (bandPixels pixels b) <> [])
    by (intros E; apply (in_map Pixel.x) in Hin; rewrite E in Hin; contradiction).
  assert (Hy : map Pixel.y (bandPixels pixels b) <> [])
    by (intros E; apply (in_map Pixel.y) in Hin; rewrite E in Hin; contradiction).
  destruct (Math_min_spec _ Hx) as [_ Hlex].
  destruct (Math_max_spec _ Hx) as [_ Hgex].
  destruct (Math_min_spec _ Hy) as [_ Hley].
  destruct (Math_max_spec _ Hy) as [_ Hgey].
  specialize (Hlex _ (in_map Pixel.x _ _ Hin)).
  specialize (Hgex _ (in_map Pixel.x _ _ Hin)).
  specialize (Hley _ (in_map Pixel.y _ _ Hin)).
  specialize (Hgey _ (in_map Pixel.y _ _ Hin)).
  destruct (Hb p Hp) as [Hpx Hpy].
  unfold bandRegion; cbn. lia.
Qed.

(** Each side of a band rectangle taken alone respects the image: the
    corner is non-negative and the width and height are positive and at
    most the image's. *)
Lemma bandRegion_sides pixels w h b :
  inBounds w h pixels -> 0 < len (bandPixels pixels b) ->
  let r := bandRegion pixels w h b in
  0 <= DiffRegion.x r /\ 0 <= DiffRegion.y r /\
  0 < DiffRegion.width r <= w /\ 0 < DiffRegion.height r <= h.
Proof.
  intros Hb Hlen. apply len_pos_nonempty in Hlen.
  destruct (bandPixels pixels b) as [|p bp] eqn:E; [contradiction|].
  assert (Hin : In p pixels).
  { assert (H : In p (bandPixels pixels b)) by (rewrite E; now left).
    apply filter_In in H. tauto. }
  assert (Hx : map Pixel.x (p :: bp) <> []) by discriminate.
  assert (Hy : map Pixel.y (p :: bp) <> []) by discriminate.
  destruct (Math_min_spec _ Hx) as [_ Hlex].
  destruct (Math_max_spec _ Hx) as [_ Hgex].
  destruct (Math_min_spec _ Hy) as [_ Hley].
  destruct (Math_max_spec _ Hy) as [_ Hgey].
  assert (Hhd : In p (p :: bp)) by now left.
  specialize (Hlex _ (in_map Pixel.x _ _ Hhd)).
  specialize (Hgex _ (in_map Pixel.x _ _ Hhd)).
  specialize (Hley _ (in_map Pixel.y _ _ Hhd)).
  specialize (Hgey _ (in_map Pixel.y _ _ Hhd)).
  destruct (Hb p Hin) as [Hpx Hpy].
  unfold bandRegion; rewrite E;
    cbn [DiffRegion.x DiffRegion.y DiffRegion.width DiffRegion.height].
  lia.
Qed.

(** ** From a candidate to the output *)

Lemma filter_around {A} (f : A -> bool) (l : list A) (k : nat) (a : A) :
  nth_error l k = Some a -> f a = true ->
  exists l1 l2, l = l1 ++ a :: l2 /\ length l1 = k /\
    filter f l = filter f l1 ++ a :: filter f l2.
Proof.
  intros Hk Hf. destruct (nth_error_split l k Hk) as [l1 [l2 [-> Hl]]].
  exists l1, l2. repeat split; auto.
  rewrite filter_app. cbn. now rewrite Hf.
Qed.

(** A candidate that passes the area filter and that no candidate at
    another position passing it covers survives the containment filter. *)
Lemma candidate_survives regions k r :
  nth_error regions k = Some r -> 100 < area r ->
  (forall j r', j <> k -> nth_error regions j = Some r' -> 100 < area r' ->
     covers r' r = false) ->
  In r (uniqueRegions regions).
Proof.
  intros Hk Ha Hoth.
  destruct (filter_around (fun r => 100 <? area r) regions k r Hk
              ltac:(now apply Z.ltb_lt)) as [l1 [l2 [El [Hl Ef]]]].
  fold (areaFiltered regions) in Ef.
  set (kept := filter (fun r => 100 <? area r) l1) in *.
  apply (uniqueRegions_In_intro regions r (length kept)).
  - rewrite Ef, nth_error_app2, Nat.sub_diag by lia. reflexivity.
  - rewrite Ef. intros j r' Hne Hj.
    destruct (Nat.lt_ge_cases j (length kept)) as [Hlt|Hge].
    + rewrite nth_error_app1 in Hj by assumption.
      apply nth_error_In, filter_In in Hj as [Hin Har].
      apply In_nth_error in Hin as [j0 Hj0].
      assert (j0 < length l1)%nat by (apply nth_error_Some; congruence).
      apply (Hoth j0 r'); [lia | | now apply Z.ltb_lt].
      rewrite El, nth_error_app1 by assumption. exact Hj0.
    + rewrite nth_error_app2 in Hj by assumption.
      destruct (j - length kept)%nat as [|d] eqn:Ed; [lia|].
      cbn in Hj. apply nth_error_In, filter_In in Hj as [Hin Har].
      apply In_nth_error in Hin as [j0 Hj0].
      apply (Hoth (length l1 + S j0)%nat r'); [lia | | now apply Z.ltb_lt].
      rewrite El, nth_error_app2 by lia.
      replace (length l1 + S j0 - length l1)%nat with (S j0) by lia.
      exact Hj0.
Qed.

Lemma candidate_returned pixels w h k r :
  pixels <> [] ->
  nth_error (candidateRegions pixels w h) k = Some r -> 100 < area r ->
  (forall j r', j <> k ->
     nth_error (candidateRegions pixels w h) j = Some r' -> 100 < area r' ->
     covers r' r = false) ->
  (length (uniqueRegions (candidateRegions pixels w h)) <= 5)%nat ->
  In r (findBoundingRectangles pixels w h).
Proof.
  intros Hne Hk Ha Hoth Hcap.
  rewrite findBoundingRectangles_nonempty by assumption.
  rewrite firstn_all2 by assumption.
  eapply candidate_survives; eassumption.
Qed.

(** ** The scan and the region list *)

Lemma upto_In (n z : Z) : In z (upto n) -> 0 <= z < n.
Proof.
  unfold upto. rewrite in_map_iff. intros [i [<- Hi]].
  apply in_seq in Hi. lia.
Qed.

(** The scan only records coordinates of the image. *)
Lemma diffPixels_inBounds (png : PNG.t) :
  inBounds (PNG.width png) (PNG.height png) (diffPixels png).
Proof.
  intros p Hp. unfold diffPixels in Hp.
  apply in_flat_map in Hp as [y [Hy Hp]].
  apply in_flat_map in Hp as [x [Hx Hp]].
  destruct (isDiffPixel png x y); [|contradiction].
  destruct Hp as [<-|[]]. cbn. apply upto_In in Hx, Hy. lia.
Qed.

(** The early return of [analyzeDiffImage] agrees with the one of
    [findBoundingRectangles]. *)
Lemma analyzeDiffImage_eq (png : PNG.t) :
  analyzeDiffImage png =
  findBoundingRectangles (diffPixels png) (PNG.width png) (PNG.height png).
Proof.
  unfold analyzeDiffImage, findBoundingRectangles.
  destruct (diffPixels png); reflexivity.
Qed.

Lemma inBoundsb_sound (w h : Z) (pixels : list Pixel.t) :
  inBoundsb w h pixels = true -> inBounds w h pixels.
Proof.
  unfold inBoundsb. rewrite forallb_forall. intros H p Hp.
  specialize (H p Hp). rewrite !andb_true_iff in H. lia.
Qed.

Lemma covers_spec (other region : DiffRegion.t) :
  covers other region = true <->
  DiffRegion.x other <= DiffRegion.x region /\
  DiffRegion.y other <= DiffRegion.y region /\
  DiffRegion.x other + DiffRegion.width other
    >= DiffRegion.x region + DiffRegion.width region /\
  DiffRegion.y other + DiffRegion.height other
    >= DiffRegion.y region + DiffRegion.height region.
Proof. unfold covers. rewrite !andb_true_iff, !Z.leb_le. lia. Qed.

(** With at most 50 diff pixels no band rectangle is built. *)
Lemma few_pixels_no_bands pixels w h :
  len pixels <= 50 -> bandCandidates pixels w h = [].
Proof.
  intros Hlen. destruct (bandCandidates pixels w h) as [|r t] eqn:E; [reflexivity|].
  assert (Hin : In r (bandCandidates pixels w h)) by (rewrite E; now left).
  apply bandCandidates_inv in Hin as [b [_ Hb]].
  pose proof (filter_length_le (fun p => Z.abs (Pixel.y p - b) <? 15) pixels).
  unfold len, bandPixels in *. lia.
Qed.

(** What does hold of every returned region, for pixels inside the image:
    a non-negative corner, and a positive width and height no larger than
    the image's. *)
Lemma output_sides pixels w h r :
  inBounds w h pixels ->
  In r (findBoundingRectangles pixels w h) ->
  0 <= DiffRegion.x r /\ 0 <= DiffRegion.y r /\
  0 < DiffRegion.width r <= w /\ 0 < DiffRegion.height r <= h.
Proof.
  intros Hb Hin. destruct pixels as [|p0 ps]; [contradiction|].
  rewrite findBoundingRectangles_nonempty in Hin by discriminate.
  apply firstn_In, uniqueRegions_In in Hin as [k [Hk _]].
  apply nth_error_In, areaFiltered_In in Hk as [Hk _].
  rewrite candidateRegions_eq in Hk. destruct Hk as [<-|Hk].
  - destruct (overallRegion_tight (p0 :: ps) ltac:(discriminate))
      as [[p1 [I1 E1]] [[p2 [I2 E2]] [[p3 [I3 E3]] [[p4 [I4 E4]] _]]]].
    pose proof (Hb _ I1). pose proof (Hb _ I2).
    pose proof (Hb _ I3). pose proof (Hb _ I4).
    pose proof (proj2 (proj2 (proj2 (proj2
      (overallRegion_tight (p0 :: ps) ltac:(discriminate))))) _ I1).
    lia.
  - apply bandCandidates_inv in Hk as [b [-> Hlen]].
    apply bandRegion_sides; [assumption | lia].
Qed.

(** The overall rectangle itself lies inside the image. *)
Lemma overallRegion_withinImage pixels w h :
  pixels <> [] -> inBounds w h pixels ->
  withinImage w h (overallRegion pixels).
Proof.
  intros Hne Hb.
  destruct (overallRegion_tight pixels Hne)
    as [[p1 [I1 E1]] [[p2 [I2 E2]] [[p3 [I3 E3]] [[p4 [I4 E4]] Hall]]]].
  pose proof (Hb _ I1). pose proof (Hb _ I2).
  pose proof (Hb _ I3). pose proof (Hb _ I4).
  pose proof (Hall _ I1). unfold withinImage. lia.
Qed.

(** ** Within and beyond the argument limit *)

Lemma spread_within (argLimit : Z) (f : list Z -> Z) (arr : list Z) :
  len arr <= argLimit -> Engine.spread argLimit f arr = Some (f arr).
Proof.
  intros H. unfold Engine.spread.
  destruct (Z.ltb_spec argLimit (len arr)); [lia | reflexivity].
Qed.

Lemma len_map {A B} (f : A -> B) (l : list A) : len (map f l) = len l.
Proof. unfold len. now rewrite length_map. Qed.

Lemma len_bandPixels pixels b : len (bandPixels pixels b) <= len pixels.
Proof.
  unfold len, bandPixels.
  pose proof (filter_length_le (fun p => Z.abs (Pixel.y p - b) <? 15) pixels).
  lia.
Qed.

Lemma Engine_bandRegion_within argLimit pixels w h b :
  len pixels <= argLimit ->
  Engine.bandRegion argLimit pixels w h b = Some (bandRegion pixels w h b).
Proof.
  intros H. pose proof (len_bandPixels pixels b) as Hb.
  unfold Engine.bandRegion. cbn zeta.
  rewrite !spread_within by (rewrite len_map; lia). reflexivity.
Qed.

Lemma Engine_fold_within argLimit pixels w h entries acc :
  len pixels <= argLimit ->
  fold_left (Engine.bandStep argLimit pixels w h) entries (Some acc) =
  Some (fold_left (bandStep pixels w h) entries acc).
Proof.
  intros H. revert acc; induction entries as [|[b c] t IH]; intros acc;
    cbn [fold_left]; [reflexivity|].
  unfold Engine.bandStep at 2, bandStep at 2.
  destruct (JS.gt_times_tenth c (len pixels)); [|apply IH].
  destruct (50 <? len (bandPixels pixels b)); [|apply IH].
  rewrite Engine_bandRegion_within by assumption. apply IH.
Qed.

(** With no more pixels than the engine accepts as arguments no call throws,
    and the returned array is the one computed above. *)
Lemma Engine_within argLimit pixels w h :
  len pixels <= argLimit ->
  Engine.findBoundingRectangles argLimit pixels w h =
  Some (findBoundingRectangles pixels w h).
Proof.
  intros H. unfold Engine.findBoundingRectangles, findBoundingRectangles.
  destruct (Nat.eqb (length pixels) 0); [reflexivity|]. cbn zeta.
  rewrite !spread_within by (rewrite len_map; lia).
  rewrite Engine_fold_within by assumption. reflexivity.
Qed.

(** With more pixels the first spread call throws. *)
Lemma Engine_beyond argLimit pixels w h :
  pixels <> [] -> argLimit < len pixels ->
  Engine.findBoundingRectangles argLimit pixels w h = None.
Proof.
  intros Hne H. unfold Engine.findBoundingRectangles.
  destruct pixels as [|p ps]; [contradiction|].
  cbn [length Nat.eqb]. cbn zeta. unfold Engine.spread at 1.
  rewrite len_map. destruct (Z.ltb_spec argLimit (len (p :: ps))); [reflexivity | lia].
Qed.

(** What [analyzeDiffImage] reports is the region list computed above, or
    nothing at all when the diff pixels outnumber the argument limit. *)
Lemma Engine_analyzeDiffImage argLimit png :
  Engine.analyzeDiffImage argLimit png =
  if len (diffPixels png) <=? argLimit then analyzeDiffImage png else [].
Proof.
  unfold Engine.analyzeDiffImage, analyzeDiffImage. cbn zeta.
  destruct (Z.leb_spec (len (diffPixels png)) argLimit) as [Hle|Hgt].
  - rewrite Engine_within by assumption. reflexivity.
  - destruct (diffPixels png) as [|p ps] eqn:E; [reflexivity|].
    rewrite Engine_beyond by (discriminate || assumption). reflexivity.
Qed.

(** A band rectangle is the tight box of the pixels of its vicinity,
    padded. *)
Lemma bandRegion_padded pixels w h b :
  bandRegion pixels w h b = padded w h (overallRegion (bandPixels pixels b)).
Proof.
  unfold bandRegion, padded, overallRegion. cbn. f_equal; f_equal; lia.
Qed.

(** ** The claims of the specification *)

(** C1 (the code departs from the claim).  The claim: every returned region
    lies within the image, [x + width <= imageWidth] and
    [y + height <= imageHeight].  On the 60 by 2 image [shortRow], whose
    top row is diff-coloured from column 6 to column 59, the scan finds
    those 54 pixels and the only region returned is the band rectangle
    [(1, 0, 60, 2)]: its width was capped at the image width without regard
    to its left edge, so [x + width = 61] exceeds the image width 60. *)
Theorem C1_band_region_leaves_image :
  diffPixels shortRow = rowPixels 0 6 54 /\
  analyzeDiffImage shortRow = [DiffRegion.mk 1 0 60 2] /\
  ~ withinImage (PNG.width shortRow) (PNG.height shortRow)
      (DiffRegion.mk 1 0 60 2).
Proof.
  split; [vm_compute; reflexivity|].
  split; [vm_compute; reflexivity|].
  unfold withinImage; cbn. lia.
Qed.

(** C2, as stated, fails: a single diff pixel has the tight bounding box
    [(3, 4, 1, 1)], of area 1, and the output is empty. *)
Lemma C2_counterexample :
  ~ (forall pixels w h, pixels <> [] ->
       In (overallRegion pixels) (findBoundingRectangles pixels w h)).
Proof.
  intros H. specialize (H onePixel 100 100 ltac:(discriminate)).
  vm_compute in H. exact H.
Qed.

(** C2 (amended).  The overall bounding box goes through the same filters
    as every other candidate: for a non-empty pixel list, with no more
    pixels than the engine accepts as spread arguments,
    [findBoundingRectangles] returns, and the overall bounding box is in
    the output exactly when its area exceeds 100 and no band rectangle of
    area above 100 covers it. *)
Theorem C2_overall_region_not_exempt argLimit pixels w h :
  pixels <> [] -> len pixels <= argLimit ->
  exists out,
    Engine.findBoundingRectangles argLimit pixels w h = Some out /\
    (In (overallRegion pixels) out <->
     100 < area (overallRegion pixels) /\
     forall r, In r (bandCandidates pixels w h) -> 100 < area r ->
       covers r (overallRegion pixels) = false).
Proof.
  intros Hne Hlim. exists (findBoundingRectangles pixels w h).
  split; [now apply Engine_within|]. split.
  - now apply overall_in_output_inv.
  - intros [Ha Hc].
    destruct (overall_heads_output pixels w h Hne Ha Hc) as [rest ->].
    now left.
Qed.

Lemma C2_overall_region_not_exempt_witness :
  twoRows <> [] /\ len twoRows <= 65536 /\
  exists out,
    Engine.findBoundingRectangles 65536 twoRows 100 100 = Some out /\
    (In (overallRegion twoRows) out <->
     100 < area (overallRegion twoRows) /\
     forall r, In r (bandCandidates twoRows 100 100) -> 100 < area r ->
       covers r (overallRegion twoRows) = false).
Proof.
  assert (H1 : twoRows <> []) by discriminate.
  assert (H2 : len twoRows <= 65536) by (vm_compute; discriminate).
  split; [exact H1|]. split; [exact H2|].
  exact (C2_overall_region_not_exempt 65536 twoRows 100 100 H1 H2).
Defined.

(** C3, as stated, fails on the spec's own example: row 90 of a 100 by 100
    image holds all 100 diff pixels, yet the output is the single rectangle
    [(0, 85, 100, 11)]; the overall bounding box is not returned with it,
    and the rectangle spans rows 85 to 95, not the band with 15px around
    it. *)
Lemma C3_counterexample :
  inBounds 100 100 row90 /\
  len row90 < 10 * bandCount row90 90 /\
  50 < bandCount row90 90 /\
  findBoundingRectangles row90 100 100 = [DiffRegion.mk 0 85 100 11] /\
  ~ In (overallRegion row90) (findBoundingRectangles row90 100 100) /\
  (forall r, In r (findBoundingRectangles row90 100 100) ->
     ~ (DiffRegion.y r <= 90 - 15 /\
        Z.min 100 (90 + 10 + 15) <= DiffRegion.y r + DiffRegion.height r)).
Proof.
  split; [apply inBoundsb_sound; vm_compute; reflexivity|].
  split; [vm_compute; reflexivity|].
  split; [vm_compute; reflexivity|].
  assert (E : findBoundingRectangles row90 100 100 = [DiffRegion.mk 0 85 100 11])
    by (vm_compute; reflexivity).
  rewrite E. split; [reflexivity|]. split.
  - intros [H|[]]. vm_compute in H. discriminate.
  - intros r [<-|[]]. cbn. lia.
Qed.

(** The band rectangle can also be the one that is dropped: with two stray
    pixels in the corners the overall bounding box covers it. *)
Example band_region_swallowed :
  In (bandRegion rowAndCorners 100 100 20) (candidateRegions rowAndCorners 100 100) /\
  findBoundingRectangles rowAndCorners 100 100 = [DiffRegion.mk 0 0 100 100].
Proof. split; [vm_compute; tauto | vm_compute; reflexivity]. Qed.

(** C3 (amended).  For pixels inside the image, fewer than 2^32 of them
    and no more than the engine accepts as spread arguments, take a 10px
    band starting at row [b] that holds more than 10% of the pixels and has
    more than 50 pixels with [|y - b| < 15], its vicinity.  Then
    [findBoundingRectangles] returns; its candidate list starts with the
    overall bounding box and holds, further on, the band's rectangle: the
    tight bounding box of the pixels of the vicinity, padded by 5px on
    every side, its corner floored at 0 and its width and height capped at
    the image's.  That rectangle contains every pixel of the vicinity.  It
    is returned when its area exceeds 100, no candidate of area above 100
    at another position covers it, and at most 5 candidates survive the
    filters; the overall bounding box is returned only if its area exceeds
    100 and no band rectangle of area above 100 covers it. *)
Theorem C3_band_region_candidate argLimit pixels w h b :
  inBounds w h pixels ->
  len pixels <= argLimit ->
  len pixels < 2 ^ 32 ->
  len pixels < 10 * bandCount pixels b ->
  50 < len (bandPixels pixels b) ->
  let vicinity := bandPixels pixels b in
  let t := overallRegion vicinity in
  let r := padded w h t in
  let cands := candidateRegions pixels w h in
  let out := findBoundingRectangles pixels w h in
  Engine.findBoundingRectangles argLimit pixels w h = Some out /\
  (forall p, In p vicinity <-> In p pixels /\ Z.abs (Pixel.y p - b) < 15) /\
  tightBoundingBox vicinity t /\
  hd_error cands = Some (overallRegion pixels) /\
  (exists k, (1 <= k)%nat /\ nth_error cands k = Some r /\
     (100 < area r ->
      (forall j r', j <> k -> nth_error cands j = Some r' ->
         100 < area r' -> covers r' r = false) ->
      (length (uniqueRegions cands) <= 5)%nat ->
      In r out)) /\
  (forall p, In p vicinity -> containsPixel r p) /\
  (0 <= DiffRegion.x r /\ 0 <= DiffRegion.y r /\
   0 < DiffRegion.width r <= w /\ 0 < DiffRegion.height r <= h) /\
  (In (overallRegion pixels) out ->
   100 < area (overallRegion pixels) /\
   forall r', In r' (bandCandidates pixels w h) -> 100 < area r' ->
     covers r' (overallRegion pixels) = false).
Proof.
  intros Hb Hlim Hlen Hten Hmin vicinity t r cands out.
  assert (Hne : pixels <> []).
  { intros ->. unfold bandPixels, len in Hmin. cbn in Hmin. lia. }
  assert (Hvne : vicinity <> []) by (apply len_pos_nonempty; unfold vicinity; lia).
  assert (Er : bandRegion pixels w h b = r) by apply bandRegion_padded.
  assert (Hv : forall p, In p vicinity <-> In p pixels /\ Z.abs (Pixel.y p - b) < 15).
  { intros p. unfold vicinity, bandPixels. rewrite filter_In, Z.ltb_lt. tauto. }
  split; [now apply Engine_within|].
  split; [exact Hv|].
  split; [now apply overallRegion_tight|].
  split; [unfold cands; now rewrite candidateRegions_eq|].
  split; [|split; [|split]].
  - pose proof (bandCandidates_intro pixels w h b Hlen Hten Hmin) as Hin.
    rewrite Er in Hin. apply In_nth_error in Hin as [k0 Hk0]. exists (S k0).
    split; [lia|]. split; [unfold cands; now rewrite candidateRegions_eq|].
    intros Ha Hoth Hcap.
    apply (candidate_returned pixels w h (S k0) r); auto.
    now rewrite candidateRegions_eq.
  - intros p Hp. apply Hv in Hp as [Hp Hy]. rewrite <- Er.
    now apply bandRegion_covers.
  - rewrite <- Er. apply bandRegion_sides; [assumption | lia].
  - now apply overall_in_output_inv.
Qed.

Lemma C3_band_region_candidate_witness :
  inBounds 100 100 twoRows /\
  len twoRows <= 65536 /\
  len twoRows < 2 ^ 32 /\
  len twoRows < 10 * bandCount twoRows 10 /\
  50 < len (bandPixels twoRows 10) /\
  let vicinity := bandPixels twoRows 10 in
  let t := overallRegion vicinity in
  let r := padded 100 100 t in
  let cands := candidateRegions twoRows 100 100 in
  let out := findBoundingRectangles twoRows 100 100 in
  Engine.findBoundingRectangles 65536 twoRows 100 100 = Some out /\
  (forall p, In p vicinity <-> In p twoRows /\ Z.abs (Pixel.y p - 10) < 15) /\
  tightBoundingBox vicinity t /\
  hd_error cands = Some (overallRegion twoRows) /\
  (exists k, (1 <= k)%nat /\ nth_error cands k = Some r /\
     (100 < area r ->
      (forall j r', j <> k -> nth_error cands j = Some r' ->
         100 < area r' -> covers r' r = false) ->
      (length (uniqueRegions cands) <= 5)%nat ->
      In r out)) /\
  (forall p, In p vicinity -> containsPixel r p) /\
  (0 <= DiffRegion.x r /\ 0 <= DiffRegion.y r /\
   0 < DiffRegion.width r <= 100 /\ 0 < DiffRegion.height r <= 100) /\
  (In (overallRegion twoRows) out ->
   100 < area (overallRegion twoRows) /\
   forall r', In r' (bandCandidates twoRows 100 100) -> 100 < area r' ->
     covers r' (overallRegion twoRows) = false).
Proof.
  assert (H1 : inBounds 100 100 twoRows)
    by (apply inBoundsb_sound; vm_compute; reflexivity).
  assert (H2 : len twoRows <= 65536) by (vm_compute; discriminate).
  assert (H3 : len twoRows < 2 ^ 32) by (vm_compute; reflexivity).
  assert (H4 : len twoRows < 10 * bandCount twoRows 10)
    by (vm_compute; reflexivity).
  assert (H5 : 50 < len (bandPixels twoRows 10)) by (vm_compute; reflexivity).
  repeat (split; [assumption|]).
  exact (C3_band_region_candidate 65536 twoRows 100 100 10 H1 H2 H3 H4 H5).
Defined.

(** C4, as stated, fails: the dense 20 by 20 cluster with its corner at
    (40, 40) has the tight bounding box [(40, 40, 20, 20)], yet the first
    and only region returned is the band rectangle [(35, 35, 30, 30)],
    which covers the tight box and so removes it; when the cluster exceeds
    the engine's argument limit nothing is returned at all. *)
Lemma C4_counterexample :
  tightBoundingBox denseCluster (DiffRegion.mk 40 40 20 20) /\
  findBoundingRectangles denseCluster 100 100 = [DiffRegion.mk 35 35 30 30] /\
  hd_error (findBoundingRectangles denseCluster 100 100)
    <> Some (DiffRegion.mk 40 40 20 20) /\
  (forall argLimit,
     match Engine.findBoundingRectangles argLimit denseCluster 100 100 with
     | Some out => hd_error out <> Some (DiffRegion.mk 40 40 20 20)
     | None => True
     end).
Proof.
  assert (Hne : denseCluster <> []) by (vm_compute; discriminate).
  assert (E : findBoundingRectangles denseCluster 100 100
              = [DiffRegion.mk 35 35 30 30]) by (vm_compute; reflexivity).
  split; [|split; [exact E|split]].
  - pose proof (overallRegion_tight denseCluster Hne) as H.
    assert (Eo : overallRegion denseCluster = DiffRegion.mk 40 40 20 20)
      by (vm_compute; reflexivity).
    now rewrite Eo in H.
  - rewrite E. cbn. discriminate.
  - intros argLimit.
    destruct (Z.le_gt_cases (len denseCluster) argLimit) as [Hle|Hgt].
    + rewrite (Engine_within _ _ _ _ Hle), E. cbn. discriminate.
    + rewrite (Engine_beyond argLimit denseCluster 100 100 Hne) by lia. exact I.
Qed.

(** C4 (amended).  For a non-empty pixel list, with no more pixels than the
    engine accepts as spread arguments, whose tight bounding box has an
    area above 100 and is not covered by any band rectangle of area above
    100, [findBoundingRectangles] returns and the first region returned is
    that tight bounding box
    [(minX, minY, maxX - minX + 1, maxY - minY + 1)]. *)
Theorem C4_first_region_is_tight_box argLimit pixels w h :
  pixels <> [] -> len pixels <= argLimit ->
  100 < area (overallRegion pixels) ->
  (forall r, In r (bandCandidates pixels w h) -> 100 < area r ->
     covers r (overallRegion pixels) = false) ->
  exists out,
    Engine.findBoundingRectangles argLimit pixels w h = Some out /\
    hd_error out = Some (overallRegion pixels) /\
    tightBoundingBox pixels (overallRegion pixels).
Proof.
  intros Hne Hlim Ha Hc. exists (findBoundingRectangles pixels w h).
  split; [now apply Engine_within|].
  split; [|now apply overallRegion_tight].
  destruct (overall_heads_output pixels w h Hne Ha Hc) as [rest ->].
  reflexivity.
Qed.

(** A cluster of at most 50 pixels never has a band rectangle, so for it the
    area condition alone decides. *)
Lemma small_cluster_output pixels w h :
  pixels <> [] -> len pixels <= 50 ->
  100 < area (overallRegion pixels) ->
  findBoundingRectangles pixels w h = [overallRegion pixels].
Proof.
  intros Hne Hlen Ha. rewrite findBoundingRectangles_nonempty by assumption.
  rewrite candidateRegions_eq, few_pixels_no_bands by assumption.
  unfold uniqueRegions, areaFiltered. cbn [filter].
  apply Z.ltb_lt in Ha. rewrite Ha. reflexivity.
Qed.

Lemma C4_first_region_is_tight_box_witness :
  rowAndCorners <> [] /\
  len rowAndCorners <= 65536 /\
  100 < area (overallRegion rowAndCorners) /\
  (forall r, In r (bandCandidates rowAndCorners 100 100) -> 100 < area r ->
     covers r (overallRegion rowAndCorners) = false) /\
  exists out,
    Engine.findBoundingRectangles 65536 rowAndCorners 100 100 = Some out /\
    hd_error out = Some (overallRegion rowAndCorners) /\
    tightBoundingBox rowAndCorners (overallRegion rowAndCorners).
Proof.
  assert (H1 : rowAndCorners <> []) by discriminate.
  assert (H2 : len rowAndCorners <= 65536) by (vm_compute; discriminate).
  assert (H3 : 100 < area (overallRegion rowAndCorners))
    by (vm_compute; reflexivity).
  assert (H4 : forall r, In r (bandCandidates rowAndCorners 100 100) ->
                 100 < area r -> covers r (overallRegion rowAndCorners) = false).
  { intros r Hr _.
    assert (E : bandCandidates rowAndCorners 100 100 = [DiffRegion.mk 15 15 70 11])
      by (vm_compute; reflexivity).
    rewrite E in Hr. destruct Hr as [<-|[]]. vm_compute. reflexivity. }
  repeat (split; [assumption|]).
  exact (C4_first_region_is_tight_box 65536 rowAndCorners 100 100 H1 H2 H3 H4).
Defined.

(** C5, as stated, fails: on the 100 by 100 image whose diff pixels are
    exactly row 90 the only region returned is [(0, 85, 100, 11)], rows 85
    to 95.  No returned region has the vertical extent of the band with its
    15px vicinity and the 5px padding, clamped to the image (rows 70 to 99),
    and none covers the band's rows 90 to 99. *)
Lemma C5_counterexample :
  findBoundingRectangles row90 100 100 = [DiffRegion.mk 0 85 100 11] /\
  ~ (exists r, In r (findBoundingRectangles row90 100 100) /\
       DiffRegion.x r = 0 /\ DiffRegion.width r = 100 /\
       DiffRegion.y r <= Z.max 0 (90 - 15 - 5) /\
       Z.min 100 (90 + 10 + 15 + 5) <= DiffRegion.y r + DiffRegion.height r) /\
  ~ (exists r, In r (findBoundingRectangles row90 100 100) /\
       DiffRegion.y r <= 90 /\
       90 + 10 <= DiffRegion.y r + DiffRegion.height r).
Proof.
  assert (E : findBoundingRectangles row90 100 100 = [DiffRegion.mk 0 85 100 11])
    by (vm_compute; reflexivity).
  rewrite E. split; [reflexivity|]. split.
  - intros [r [[<-|[]] H]]. cbn in H. lia.
  - intros [r [[<-|[]] H]]. cbn in H. lia.
Qed.

(** C5 (amended).  On the 100 by 100 image whose diff pixels are exactly
    row 90 the candidates are the overall bounding box [(0, 90, 100, 1)]
    and one band rectangle.  The area filter drops the overall box, whose
    area 100 does not exceed the threshold.  The output is the band
    rectangle [(0, 85, 100, 11)] alone: the tight box of the diff pixels
    padded by 5px, full width, rows 85 to 95 (not the band with its 15px
    vicinity), inside the image and containing every diff pixel. *)
Theorem C5_row90_example :
  len row90 = 100 /\
  (forall p, In p row90 <-> Pixel.y p = 90 /\ 0 <= Pixel.x p <= 99) /\
  overallRegion row90 = DiffRegion.mk 0 90 100 1 /\
  area (overallRegion row90) = 100 /\
  candidateRegions row90 100 100
    = [DiffRegion.mk 0 90 100 1; DiffRegion.mk 0 85 100 11] /\
  areaFiltered (candidateRegions row90 100 100) = [DiffRegion.mk 0 85 100 11] /\
  findBoundingRectangles row90 100 100 = [DiffRegion.mk 0 85 100 11] /\
  bandPixels row90 90 = row90 /\
  tightBoundingBox row90 (DiffRegion.mk 0 90 100 1) /\
  DiffRegion.mk 0 85 100 11 = padded 100 100 (DiffRegion.mk 0 90 100 1) /\
  withinImage 100 100 (DiffRegion.mk 0 85 100 11) /\
  (forall p, In p row90 -> containsPixel (DiffRegion.mk 0 85 100 11) p).
Proof.
  assert (Hrow : forall p, In p row90 <-> Pixel.y p = 90 /\ 0 <= Pixel.x p <= 99).
  { intros p. unfold row90, rowPixels. rewrite in_map_iff. split.
    - intros [i [<- Hi]]. apply in_seq in Hi. cbn. lia.
    - intros [Hy Hx]. exists (Z.to_nat (Pixel.x p)). split.
      + destruct p as [px py]; cbn in *. subst py. f_equal. lia.
      + apply in_seq. lia. }
  assert (Eo : overallRegion row90 = DiffRegion.mk 0 90 100 1)
    by (vm_compute; reflexivity).
  split; [reflexivity|]. split; [exact Hrow|].
  do 6 (split; [vm_compute; reflexivity|]).
  split; [rewrite <- Eo; apply overallRegion_tight; discriminate|].
  split; [vm_compute; reflexivity|].
  split; [unfold withinImage; cbn; lia|].
  intros p Hp. apply Hrow in Hp. unfold containsPixel. cbn. lia.
Qed.

(** C6.  With no diff pixel the region list is empty:
    [findBoundingRectangles] returns [[]] on the empty array before any
    [Math.min] or [Math.max] is taken, and [analyzeDiffImage] returns an
    empty [regions] when the scan found nothing.  Both are plain returns;
    no exception is involved. *)
Theorem C6_no_diff_pixels_no_regions :
  (forall w h, findBoundingRectangles [] w h = []) /\
  (forall png, diffPixels png = [] -> analyzeDiffImage png = []).
Proof.
  split; [reflexivity|].
  intros png H. unfold analyzeDiffImage. now rewrite H.
Qed.

Lemma C6_no_diff_pixels_no_regions_witness :
  diffPixels blackImage = [] /\ analyzeDiffImage blackImage = [].
Proof.
  assert (H : diffPixels blackImage = []) by (vm_compute; reflexivity).
  split; [exact H|].
  exact (proj2 C6_no_diff_pixels_no_regions blackImage H).
Defined.

(** C7.  Two regions at different positions of the output never contain one
    another: if [a] and [b] are returned at positions [i <> j], it is not
    the case that [b.x <= a.x], [b.y <= a.y],
    [b.x + b.width >= a.x + a.width] and
    [b.y + b.height >= a.y + a.height]. *)
Theorem C7_no_region_contained pixels w h i j a b :
  i <> j ->
  nth_error (findBoundingRectangles pixels w h) i = Some a ->
  nth_error (findBoundingRectangles pixels w h) j = Some b ->
  ~ (DiffRegion.x b <= DiffRegion.x a /\
     DiffRegion.y b <= DiffRegion.y a /\
     DiffRegion.x b + DiffRegion.width b >= DiffRegion.x a + DiffRegion.width a /\
     DiffRegion.y b + DiffRegion.height b >= DiffRegion.y a + DiffRegion.height a).
Proof.
  intros Hij Hi Hj Hcov. apply covers_spec in Hcov.
  destruct pixels as [|p ps]; [destruct i; discriminate|].
  rewrite findBoundingRectangles_nonempty in Hi, Hj by discriminate.
  apply firstn_nth_error in Hi, Hj. unfold uniqueRegions, JS.Array_filter in Hi, Hj.
  set (arr := areaFiltered (candidateRegions (p :: ps) w h)) in *.
  assert (Hpos : exists i' j', i' <> j' /\
            nth_error arr j' = Some b /\ notContained a i' arr = true).
  { destruct (Nat.lt_total i j) as [Hlt|[Heq|Hgt]]; [| contradiction |].
    - destruct (filter_from_nth2 _ _ _ _ _ _ _ Hlt Hi Hj)
        as [i' [j' [Hl [_ [Hb [Hf _]]]]]].
      exists i', j'. cbn in Hf. repeat split; auto; lia.
    - destruct (filter_from_nth2 _ _ _ _ _ _ _ Hgt Hj Hi)
        as [j' [i' [Hl [Hb [_ [_ Hf]]]]]].
      exists i', j'. cbn in Hf. repeat split; auto; lia. }
  destruct Hpos as [i' [j' [Hne [Hb Hf]]]].
  unfold notContained, JS.Array_some in Hf. apply negb_true_iff in Hf.
  pose proof (some_from_false _ _ _ Hf j' b Hb) as H. cbn in H.
  rewrite Hcov, andb_true_r in H. apply negb_false_iff, Nat.eqb_eq in H.
  congruence.
Qed.

Lemma C7_no_region_contained_witness :
  0%nat <> 1%nat /\
  nth_error (findBoundingRectangles twoRows 100 100) 0
    = Some (DiffRegion.mk 0 10 100 71) /\
  nth_error (findBoundingRectangles twoRows 100 100) 1
    = Some (DiffRegion.mk 0 5 70 11) /\
  ~ (0 <= 0 /\ 5 <= 10 /\ 0 + 70 >= 0 + 100 /\ 5 + 11 >= 10 + 71).
Proof.
  assert (H1 : 0%nat <> 1%nat) by discriminate.
  assert (H2 : nth_error (findBoundingRectangles twoRows 100 100) 0
               = Some (DiffRegion.mk 0 10 100 71)) by (vm_compute; reflexivity).
  assert (H3 : nth_error (findBoundingRectangles twoRows 100 100) 1
               = Some (DiffRegion.mk 0 5 70 11)) by (vm_compute; reflexivity).
  repeat (split; [assumption|]).
  exact (C7_no_region_contained twoRows 100 100 0 1 _ _ H1 H2 H3).
Defined.

(** C8.  Whatever the pixels and however many bands qualify, at most 5
    regions are returned. *)
Theorem C8_at_most_five_regions pixels w h :
  (length (findBoundingRectangles pixels w h) <= 5)%nat.
Proof.
  unfold findBoundingRectangles, JS.Array_slice0.
  destruct (Nat.eqb (length pixels) 0); [cbn; lia|].
  apply firstn_le_length.
Qed.

(** The cap does cut: six separate rows give seven rectangles that survive
    both filters, of which five are returned. *)
Example cap_cuts_survivors :
  length (uniqueRegions (candidateRegions sixRows 200 200)) = 7%nat /\
  length (findBoundingRectangles sixRows 200 200) = 5%nat.
Proof. split; vm_compute; reflexivity. Qed.

(** C10.  The containment test is non-strict and looks at every other
    position of the area-filtered array: a rectangle that occurs at two
    positions of that array is not returned at all.  The 20 by 10 image
    whose 200 pixels are all diff-coloured is such an input: its band
    rectangle coincides with the overall bounding box [(0, 0, 20, 10)] and
    the output is empty. *)
Theorem C10_identical_candidates_both_removed :
  (forall pixels w h i j r,
     i <> j ->
     nth_error (areaFiltered (candidateRegions pixels w h)) i = Some r ->
     nth_error (areaFiltered (candidateRegions pixels w h)) j = Some r ->
     ~ In r (findBoundingRectangles pixels w h)) /\
  (len (blockPixels 20 10) = 200 /\
   areaFiltered (candidateRegions (blockPixels 20 10) 20 10)
     = [DiffRegion.mk 0 0 20 10; DiffRegion.mk 0 0 20 10] /\
   findBoundingRectangles (blockPixels 20 10) 20 10 = []).
Proof.
  split.
  - intros pixels w h i j r Hij Hi Hj Hin.
    destruct pixels as [|p ps]; [contradiction|].
    rewrite findBoundingRectangles_nonempty in Hin by discriminate.
    apply firstn_In, uniqueRegions_In in Hin as [k [Hk Hoth]].
    destruct (Nat.eq_dec i k) as [->|Hik].
    + specialize (Hoth j r ltac:(congruence) Hj).
      rewrite covers_refl in Hoth. discriminate.
    + specialize (Hoth i r Hik Hi).
      rewrite covers_refl in Hoth. discriminate.
  - repeat split; vm_compute; reflexivity.
Qed.

Lemma C10_identical_candidates_both_removed_witness :
  0%nat <> 1%nat /\
  nth_error (areaFiltered (candidateRegions (blockPixels 20 10) 20 10)) 0
    = Some (DiffRegion.mk 0 0 20 10) /\
  nth_error (areaFiltered (candidateRegions (blockPixels 20 10) 20 10)) 1
    = Some (DiffRegion.mk 0 0 20 10) /\
  ~ In (DiffRegion.mk 0 0 20 10) (findBoundingRectangles (blockPixels 20 10) 20 10).
Proof.
  assert (H1 : 0%nat <> 1%nat) by discriminate.
  assert (H2 : nth_error (areaFiltered (candidateRegions (blockPixels 20 10) 20 10)) 0
               = Some (DiffRegion.mk 0 0 20 10)) by (vm_compute; reflexivity).
  assert (H3 : nth_error (areaFiltered (candidateRegions (blockPixels 20 10) 20 10)) 1
               = Some (DiffRegion.mk 0 0 20 10)) by (vm_compute; reflexivity).
  repeat (split; [assumption|]).
  exact (proj1 C10_identical_candidates_both_removed
           (blockPixels 20 10) 20 10 0%nat 1%nat _ H1 H2 H3).
Defined.

(** ** Further properties of [findBoundingRectangles] *)

Lemma Map_set_sum (m : JS.Map) (k : Z) :
  fold_right Z.add 0 (map snd (JS.Map_set m k (JS.or_zero (JS.Map_get m k) + 1)))
  = fold_right Z.add 0 (map snd m) + 1.
Proof.
  induction m as [|[k0 v0] t IH]; cbn; [reflexivity|].
  destruct (Z.eqb_spec k0 k); cbn; [lia | rewrite IH; lia].
Qed.

Lemma Map_set_nonneg (m : JS.Map) (k : Z) :
  Forall (fun e => 0 <= snd e) m ->
  Forall (fun e => 0 <= snd e) (JS.Map_set m k (JS.or_zero (JS.Map_get m k) + 1)).
Proof.
  induction m as [|[k0 v0] t IH]; cbn; intros H.
  - constructor; [cbn; lia | constructor].
  - inversion H as [|? ? H0 Ht]; subst. cbn in H0.
    destruct (Z.eqb_spec k0 k); constructor; cbn; auto; lia.
Qed.

(** The counts kept in [yGroups] add up to the number of pixels, and none
    is negative. *)
Lemma yGroups_total (pixels : list Pixel.t) :
  fold_right Z.add 0 (map snd (yGroups pixels)) = len pixels /\
  Forall (fun e => 0 <= snd e) (yGroups pixels).
Proof.
  unfold yGroups.
  assert (G : forall m,
    fold_right Z.add 0 (map snd
      (fold_left (fun m p =>
         JS.Map_set m (yBandOf p) (JS.or_zero (JS.Map_get m (yBandOf p)) + 1))
         pixels m))
    = fold_right Z.add 0 (map snd m) + len pixels /\
    (Forall (fun e => 0 <= snd e) m ->
     Forall (fun e => 0 <= snd e)
      (fold_left (fun m p =>
         JS.Map_set m (yBandOf p) (JS.or_zero (JS.Map_get m (yBandOf p)) + 1))
         pixels m))).
  { induction pixels as [|p ps IH]; intros m; cbn [fold_left].
    - unfold len; cbn. split; [lia | auto].
    - destruct (IH (JS.Map_set m (yBandOf p)
                      (JS.or_zero (JS.Map_get m (yBandOf p)) + 1))) as [Hs Hn].
      split.
      + rewrite Hs, Map_set_sum. unfold len. cbn [length].
        rewrite Nat2Z.inj_succ. lia.
      + intros Hm. apply Hn, Map_set_nonneg, Hm. }
  destruct (G []) as [Hs Hn]. split; [exact Hs | apply Hn; constructor].
Qed.

(** Entries whose count exceeds a tenth of [L]: ten of them would hold more
    than [L] pixels together. *)
Lemma heavy_entries_bound (entries : JS.Map) (L : Z) :
  0 <= L ->
  Forall (fun e => 0 <= snd e) entries ->
  Z.of_nat (length (filter (fun e => L <? 10 * snd e) entries)) * (L + 1)
  <= 10 * fold_right Z.add 0 (map snd entries).
Proof.
  intros HL H. induction H as [|[k v] t Hv Ht IH]; cbn [filter map fold_right snd].
  - cbn. lia.
  - cbn in Hv. destruct (Z.ltb_spec L (10 * v)).
    + cbn [length]. rewrite Nat2Z.inj_succ. lia.
    + lia.
Qed.

Lemma bandCandidates_length pixels w h :
  len pixels < 2 ^ 32 ->
  (length (bandCandidates pixels w h)
   <= length (filter (fun e => (len pixels <? 10 * snd e)%Z) (yGroups pixels)))%nat.
Proof.
  intros Hlen. unfold bandCandidates.
  induction (yGroups pixels) as [|[b c] t IH]; [cbn; lia|].
  cbn [flat_map filter snd].
  rewrite length_app. unfold bandStep at 1.
  rewrite gt_times_tenth_exact by (unfold len in *; lia).
  destruct (len pixels <? 10 * c).
  - destruct (50 <? len (bandPixels pixels b)); cbn [length app]; lia.
  - cbn [length app]. lia.
Qed.

Lemma Map_set_key_In (m : JS.Map) (k v k' : Z) :
  In k' (map fst (JS.Map_set m k v)) <-> k' = k \/ In k' (map fst m).
Proof.
  induction m as [|[k0 v0] t IH]; cbn.
  - intuition.
  - destruct (Z.eqb_spec k0 k) as [->|Hne]; cbn.
    + intuition.
    + rewrite IH. intuition.
Qed.

Lemma Map_set_NoDup (m : JS.Map) (k v : Z) :
  NoDup (map fst m) -> NoDup (map fst (JS.Map_set m k v)).
Proof.
  induction m as [|[k0 v0] t IH]; cbn; intros H.
  - constructor; [intros [] | constructor].
  - inversion H as [|? ? Hnin Ht]; subst.
    destruct (Z.eqb_spec k0 k) as [->|Hne]; cbn.
    + constructor; assumption.
    + constructor; [|auto]. rewrite Map_set_key_In. intros [E|E]; congruence.
Qed.

Lemma yGroups_NoDup (pixels : list Pixel.t) : NoDup (map fst (yGroups pixels)).
Proof.
  unfold yGroups.
  assert (G : forall m, NoDup (map fst m) ->
    NoDup (map fst
      (fold_left (fun m p =>
         JS.Map_set m (yBandOf p) (JS.or_zero (JS.Map_get m (yBandOf p)) + 1))
         pixels m))).
  { induction pixels as [|p ps IH]; intros m Hm; cbn [fold_left]; [assumption|].
    apply IH, Map_set_NoDup, Hm. }
  apply G. constructor.
Qed.

(** X1.  For pixels inside the image, every returned region has a
    non-negative corner and a positive width and height that do not exceed
    the image's. *)
Theorem X1_returned_region_sides pixels w h r :
  inBounds w h pixels ->
  In r (findBoundingRectangles pixels w h) ->
  0 <= DiffRegion.x r /\ 0 <= DiffRegion.y r /\
  0 < DiffRegion.width r <= w /\ 0 < DiffRegion.height r <= h.
Proof. apply output_sides. Qed.

Lemma X1_returned_region_sides_witness :
  inBounds 100 100 twoRows /\
  In (DiffRegion.mk 35 75 70 11) (findBoundingRectangles twoRows 100 100) /\
  0 <= 35 /\ 0 <= 75 /\ 0 < 70 <= 100 /\ 0 < 11 <= 100.
Proof.
  assert (H1 : inBounds 100 100 twoRows)
    by (apply inBoundsb_sound; vm_compute; reflexivity).
  assert (H2 : In (DiffRegion.mk 35 75 70 11)
                 (findBoundingRectangles twoRows 100 100))
    by (vm_compute; tauto).
  split; [exact H1|]. split; [exact H2|].
  exact (X1_returned_region_sides twoRows 100 100 _ H1 H2).
Defined.

(** X2.  Whatever the input, a returned region has an area above 100. *)
Theorem X2_returned_region_area pixels w h r :
  In r (findBoundingRectangles pixels w h) ->
  100 < DiffRegion.width r * DiffRegion.height r.
Proof. apply output_area. Qed.

Lemma X2_returned_region_area_witness :
  In (DiffRegion.mk 0 85 100 11) (findBoundingRectangles row90 100 100) /\
  100 < 100 * 11.
Proof.
  assert (H : In (DiffRegion.mk 0 85 100 11)
                (findBoundingRectangles row90 100 100))
    by (vm_compute; tauto).
  split; [exact H|].
  exact (X2_returned_region_area row90 100 100 _ H).
Defined.

Lemma returned_region_has_diff_pixel pixels w h r :
  inBounds w h pixels ->
  In r (findBoundingRectangles pixels w h) ->
  exists p, In p pixels /\ containsPixel r p.
Proof.
  intros Hb Hin. destruct pixels as [|p0 ps]; [contradiction|].
  rewrite findBoundingRectangles_nonempty in Hin by discriminate.
  apply firstn_In, uniqueRegions_In in Hin as [k [Hk _]].
  apply nth_error_In, areaFiltered_In in Hk as [Hk _].
  rewrite candidateRegions_eq in Hk. destruct Hk as [<-|Hk].
  - exists p0. split; [now left|].
    apply (overallRegion_tight (p0 :: ps) ltac:(discriminate)). now left.
  - apply bandCandidates_inv in Hk as [b [-> Hlen]].
    destruct (bandPixels (p0 :: ps) b) as [|p bp] eqn:E;
      [unfold len in Hlen; cbn in Hlen; lia|].
    assert (Hp : In p (bandPixels (p0 :: ps) b)) by (rewrite E; now left).
    apply filter_In in Hp as [Hp Hv]. apply Z.ltb_lt in Hv.
    exists p. split; [assumption|].
    apply (bandRegion_covers (p0 :: ps) w h b p Hb Hp Hv).
Qed.

(** X3.  For pixels inside the image, every returned region contains at
    least one diff pixel. *)
Theorem X3_returned_region_has_diff_pixel pixels w h r :
  inBounds w h pixels ->
  In r (findBoundingRectangles pixels w h) ->
  exists p, In p pixels /\ containsPixel r p.
Proof. apply returned_region_has_diff_pixel. Qed.

Lemma X3_returned_region_has_diff_pixel_witness :
  inBounds 100 100 row90 /\
  In (DiffRegion.mk 0 85 100 11) (findBoundingRectangles row90 100 100) /\
  exists p, In p row90 /\ containsPixel (DiffRegion.mk 0 85 100 11) p.
Proof.
  assert (H1 : inBounds 100 100 row90)
    by (apply inBoundsb_sound; vm_compute; reflexivity).
  assert (H2 : In (DiffRegion.mk 0 85 100 11)
                 (findBoundingRectangles row90 100 100))
    by (vm_compute; tauto).
  split; [exact H1|]. split; [exact H2|].
  exact (X3_returned_region_has_diff_pixel row90 100 100 _ H1 H2).
Defined.

(** X4.  With at most 50 diff pixels no band rectangle is ever built: the
    output is the overall bounding box alone when its area exceeds 100, and
    empty otherwise. *)
Theorem X4_at_most_50_pixels pixels w h :
  pixels <> [] -> len pixels <= 50 ->
  findBoundingRectangles pixels w h =
  if 100 <? area (overallRegion pixels) then [overallRegion pixels] else [].
Proof.
  intros Hne Hlen. rewrite findBoundingRectangles_nonempty by assumption.
  rewrite candidateRegions_eq, few_pixels_no_bands by assumption.
  unfold uniqueRegions, areaFiltered. cbn [filter].
  destruct (100 <? area (overallRegion pixels)); reflexivity.
Qed.

Lemma X4_at_most_50_pixels_witness :
  onePixel <> [] /\ len onePixel <= 50 /\
  findBoundingRectangles onePixel 100 100 =
  if 100 <? area (overallRegion onePixel) then [overallRegion onePixel] else [].
Proof.
  assert (H1 : onePixel <> []) by discriminate.
  assert (H2 : len onePixel <= 50) by (vm_compute; discriminate).
  split; [exact H1|]. split; [exact H2|].
  exact (X4_at_most_50_pixels onePixel 100 100 H1 H2).
Defined.

(** X5.  After the [forEach], [yGroups] holds one entry per band that has a
    pixel, its value the number of pixels of that band; a band without
    pixels has no entry. *)
Theorem X5_yGroups_counts (pixels : list Pixel.t) (b : Z) :
  JS.Map_get (yGroups pixels) b =
    (if bandCount pixels b =? 0 then None else Some (bandCount pixels b)) /\
  NoDup (map fst (yGroups pixels)).
Proof.
  split; [|apply yGroups_NoDup].
  unfold yGroups. rewrite yGroups_fold. reflexivity.
Qed.

(** X6.  At most nine bands can each hold more than a tenth of the pixels:
    the loop pushes at most 9 band rectangles, so there are at most 10
    candidates before the filters. *)
Theorem X6_at_most_nine_bands pixels w h :
  len pixels < 2 ^ 32 ->
  (length (bandCandidates pixels w h) <= 9)%nat /\
  (length (candidateRegions pixels w h) <= 10)%nat.
Proof.
  intros Hlen.
  assert (H9 : (length (bandCandidates pixels w h) <= 9)%nat).
  { pose proof (bandCandidates_length pixels w h Hlen) as Hk.
    destruct (yGroups_total pixels) as [Hsum Hnn].
    pose proof (heavy_entries_bound (yGroups pixels) (len pixels)
                  ltac:(unfold len; lia) Hnn) as Hb.
    rewrite Hsum in Hb.
    set (k := length (filter _ (yGroups pixels))) in *.
    assert (Z.of_nat k <= 9) by (unfold len in *; nia). lia. }
  split; [exact H9|]. rewrite candidateRegions_eq. cbn [length]. lia.
Qed.

Lemma X6_at_most_nine_bands_witness :
  len sixRows < 2 ^ 32 /\
  (length (bandCandidates sixRows 200 200) <= 9)%nat /\
  (length (candidateRegions sixRows 200 200) <= 10)%nat.
Proof.
  assert (H : len sixRows < 2 ^ 32) by (vm_compute; reflexivity).
  split; [exact H|].
  exact (X6_at_most_nine_bands sixRows 200 200 H).
Defined.

(** X7.  The binary64 product in [count > pixels.length * 0.1] never
    changes the decision: for every array length below 2^32 the test holds
    exactly when [10 * count > pixels.length]. *)
Theorem X7_tenth_threshold_exact (count n : Z) :
  0 <= n < 2 ^ 32 ->
  JS.gt_times_tenth count n = true <-> n < 10 * count.
Proof.
  intros H. rewrite gt_times_tenth_exact by assumption. apply Z.ltb_lt.
Qed.

Lemma X7_tenth_threshold_exact_witness :
  0 <= 30 < 2 ^ 32 /\ (JS.gt_times_tenth 3 30 = true <-> 30 < 10 * 3).
Proof.
  assert (H : 0 <= 30 < 2 ^ 32) by (split; [discriminate | reflexivity]).
  split; [exact H|].
  exact (X7_tenth_threshold_exact 3 30 H).
Defined.

(** ** Further properties of the pixel scan *)

Lemma upto_In_iff (n z : Z) : In z (upto n) <-> 0 <= z < n.
Proof.
  split; [apply upto_In|]. intros H. unfold upto. apply in_map_iff.
  exists (Z.to_nat z). split; [lia|]. apply in_seq. lia.
Qed.

Lemma StronglySorted_app {A} (R : A -> A -> Prop) (l1 l2 : list A) :
  StronglySorted R l1 -> StronglySorted R l2 ->
  (forall a b, In a l1 -> In b l2 -> R a b) ->
  StronglySorted R (l1 ++ l2).
Proof.
  intros H1 H2 H. induction H1 as [|a t Ht IH Ha]; cbn; [assumption|].
  constructor.
  - apply IH. intros x y Hx Hy. apply H; [now right | assumption].
  - apply Forall_app. split; [assumption|].
    apply Forall_forall. intros b Hb. apply H; [now left | assumption].
Qed.

Lemma flat_map_StronglySorted {A B} (R : B -> B -> Prop) (S : A -> A -> Prop)
  (f : A -> list B) (l : list A) :
  StronglySorted S l ->
  (forall a, In a l -> StronglySorted R (f a)) ->
  (forall a a' b b', S a a' -> In b (f a) -> In b' (f a') -> R b b') ->
  StronglySorted R (flat_map f l).
Proof.
  intros Hl Hf Hc. induction Hl as [|a t Ht IH Ha]; cbn; [constructor|].
  apply StronglySorted_app.
  - apply Hf. now left.
  - apply IH. intros a' Ha'. apply Hf. now right.
  - intros b b' Hb Hb'. apply in_flat_map in Hb' as [a' [Ha' Hb']].
    rewrite Forall_forall in Ha. apply (Hc a a'); auto.
Qed.

Lemma seq_sorted (s k : nat) : StronglySorted (fun a b => Z.of_nat a < Z.of_nat b) (seq s k).
Proof.
  revert s; induction k as [|k IH]; intros s; cbn; constructor; [apply IH|].
  apply Forall_forall. intros b Hb. apply in_seq in Hb. lia.
Qed.

Lemma upto_sorted (n : Z) : StronglySorted Z.lt (upto n).
Proof.
  unfold upto. generalize (seq_sorted 0 (Z.to_nat n)).
  induction 1 as [|a t Ht IH Ha]; cbn; constructor; [assumption|].
  apply Forall_forall. intros b Hb. apply in_map_iff in Hb as [c [<- Hc]].
  rewrite Forall_forall in Ha. auto.
Qed.

Lemma diffPixels_In_iff (png : PNG.t) (x y : Z) :
  In (Pixel.mk x y) (diffPixels png) <->
  0 <= x < PNG.width png /\ 0 <= y < PNG.height png /\
  isDiffPixel png x y = true.
Proof.
  unfold diffPixels. rewrite in_flat_map. split.
  - intros [y' [Hy H]]. apply in_flat_map in H as [x' [Hx H]].
    destruct (isDiffPixel png x' y') eqn:E; [|contradiction].
    destruct H as [H|[]]. injection H as <- <-.
    apply upto_In in Hx, Hy. auto.
  - intros [Hx [Hy E]]. exists y. split; [now apply upto_In_iff|].
    apply in_flat_map. exists x. split; [now apply upto_In_iff|].
    rewrite E. now left.
Qed.

(** X8.  The scan records exactly the coordinates of the image whose pixel
    passes the colour test. *)
Theorem X8_scan_membership (png : PNG.t) (x y : Z) :
  In (Pixel.mk x y) (diffPixels png) <->
  0 <= x < PNG.width png /\ 0 <= y < PNG.height png /\
  isDiffPixel png x y = true.
Proof. apply diffPixels_In_iff. Qed.

(** X9.  The scan lists the diff pixels row by row and left to right; in
    particular no pixel is listed twice. *)
Theorem X9_scan_order (png : PNG.t) :
  StronglySorted scanBefore (diffPixels png) /\ NoDup (diffPixels png).
Proof.
  assert (Hs : StronglySorted scanBefore (diffPixels png)).
  { unfold diffPixels.
    apply (flat_map_StronglySorted scanBefore Z.lt); [apply upto_sorted | |].
    - intros y _.
      apply (flat_map_StronglySorted scanBefore Z.lt); [apply upto_sorted | |].
      + intros x _. destruct (isDiffPixel png x y); repeat constructor.
      + intros x x' p p' Hlt Hp Hp'.
        destruct (isDiffPixel png x y); [|contradiction].
        destruct (isDiffPixel png x' y); [|contradiction].
        destruct Hp as [<-|[]], Hp' as [<-|[]]. right. cbn. auto.
    - intros y y' p p' Hlt Hp Hp'.
      apply in_flat_map in Hp as [x [_ Hp]], Hp' as [x' [_ Hp']].
      destruct (isDiffPixel png x y); [|contradiction].
      destruct (isDiffPixel png x' y'); [|contradiction].
      destruct Hp as [<-|[]], Hp' as [<-|[]]. left. cbn. assumption. }
  split; [exact Hs|].
  induction Hs as [|p t Ht IH Hp]; constructor; [|assumption].
  intros Hin. rewrite Forall_forall in Hp. specialize (Hp p Hin).
  unfold scanBefore in Hp. lia.
Qed.

(** X10.  The first of the three colour clauses is subsumed by the second:
    a pixel passes the test exactly when it is not fully transparent, its
    red exceeds 200, and either green is below 100 with blue above 150 or
    green is below 150 with blue above 200. *)
Theorem X10_colour_test (png : PNG.t) (x y : Z) :
  isDiffPixel png x y =
  let idx := JS.shl2 (PNG.width png * y + x) in
  let r := JS.index (PNG.data png) idx in
  let g := JS.index (PNG.data png) (idx + 1) in
  let b := JS.index (PNG.data png) (idx + 2) in
  let a := JS.index (PNG.data png) (idx + 3) in
  JS.gt a 0 && JS.gt r 200 &&
  ((JS.lt g 100 && JS.gt b 150) || (JS.lt g 150 && JS.gt b 200)).
Proof.
  unfold isDiffPixel. cbn zeta.
  destruct (JS.index (PNG.data png) (JS.shl2 (PNG.width png * y + x))) as [r|];
  destruct (JS.index (PNG.data png) (JS.shl2 (PNG.width png * y + x) + 1)) as [g|];
  destruct (JS.index (PNG.data png) (JS.shl2 (PNG.width png * y + x) + 2)) as [b|];
  destruct (JS.index (PNG.data png) (JS.shl2 (PNG.width png * y + x) + 3)) as [a|];
  cbn [JS.gt JS.lt]; rewrite ?andb_false_r, ?andb_false_l; try reflexivity.
  destruct (Z.ltb_spec 0 a); cbn [andb]; [|reflexivity].
  destruct (Z.ltb_spec 240 r), (Z.ltb_spec 200 r), (Z.ltb_spec g 50),
    (Z.ltb_spec g 100), (Z.ltb_spec g 150), (Z.ltb_spec 240 b),
    (Z.ltb_spec 150 b), (Z.ltb_spec 200 b); cbn; try reflexivity; lia.
Qed.

(** *** The byte index *)

Lemma toInt32_small (v : Z) : - 2 ^ 31 <= v < 2 ^ 31 -> JS.toInt32 v = v.
Proof.
  intros H. unfold JS.toInt32. rewrite Z.mod_small; lia.
Qed.

(** Up to [2^29] pixels the shift does not overflow. *)
Lemma shl2_small (v : Z) : 0 <= v < 2 ^ 29 -> JS.shl2 v = 4 * v.
Proof.
  intros H. unfold JS.shl2. change (2 ^ 29) with 536870912 in H.
  rewrite (toInt32_small v) by (change (2 ^ 31) with 2147483648; lia).
  rewrite Z.shiftl_mul_pow2 by lia. change (2 ^ 2) with 4.
  rewrite toInt32_small by (change (2 ^ 31) with 2147483648; lia). lia.
Qed.

(** From [2^29] on, the 32-bit shift turns the index negative. *)
Lemma shl2_wrap (v : Z) : 2 ^ 29 <= v < 2 ^ 30 -> JS.shl2 v = 4 * v - 2 ^ 32.
Proof.
  intros H. unfold JS.shl2.
  change (2 ^ 29) with 536870912 in H. change (2 ^ 30) with 1073741824 in H.
  rewrite (toInt32_small v) by (change (2 ^ 31) with 2147483648; lia).
  rewrite Z.shiftl_mul_pow2 by lia. change (2 ^ 2) with 4.
  unfold JS.toInt32. change (2 ^ 31) with 2147483648.
  change (2 ^ 32) with 4294967296.
  replace (v * 4 + 2147483648) with (v * 4 - 2147483648 + 1 * 4294967296) by lia.
  rewrite Z.mod_add by lia. rewrite Z.mod_small; lia.
Qed.

Lemma nth_error_flat_map_chunks {A B} (f : A -> list B) (n : nat) (l : list A)
  (i k : nat) (a : A) :
  (forall a, length (f a) = n) ->
  nth_error l i = Some a -> (k < n)%nat ->
  nth_error (flat_map f l) (i * n + k) = nth_error (f a) k.
Proof.
  intros Hn. revert i; induction l as [|b t IH]; intros i Hi Hk.
  - destruct i; discriminate.
  - cbn [flat_map]. destruct i as [|i]; cbn in Hi.
    + injection Hi as ->. cbn. apply nth_error_app1. now rewrite Hn.
    + rewrite nth_error_app2 by (rewrite Hn; lia). rewrite Hn.
      replace (S i * n + k - n)%nat with (i * n + k)%nat by lia.
      now apply IH.
Qed.

Lemma upto_nth (n : Z) (i : nat) :
  (i < Z.to_nat n)%nat -> nth_error (upto n) i = Some (Z.of_nat i).
Proof.
  intros H. unfold upto. rewrite nth_error_map, nth_error_seq.
  destruct (Nat.ltb_spec i (Z.to_nat n)); [reflexivity | lia].
Qed.

Lemma length_flat_map_chunks {A B} (f : A -> list B) (n : nat) (l : list A) :
  (forall a, length (f a) = n) -> length (flat_map f l) = (length l * n)%nat.
Proof.
  intros Hn. induction l as [|a t IH]; cbn; [reflexivity|].
  rewrite length_app, Hn, IH. reflexivity.
Qed.

(** Byte [c] of the pixel at [(x, y)] of a raster. *)
Lemma raster_byte (w h : Z) (marked : Z -> Z -> bool) (x y : Z) (c : nat) :
  0 <= x < w -> 0 <= y < h -> (c < 4)%nat ->
  nth_error (PNG.data (raster w h marked))
    (Z.to_nat (4 * (w * y + x)) + c)
  = nth_error
      (if marked x y then [255; 0; 255; 255] else [0; 0; 0; 255]) c.
Proof.
  intros Hx Hy Hc.
  pose (cell := fun y x => if marked x y then [255; 0; 255; 255] else [0; 0; 0; 255]).
  pose (row := fun y => flat_map (cell y) (upto w)).
  change (nth_error (flat_map row (upto h)) (Z.to_nat (4 * (w * y + x)) + c)
          = nth_error (cell y x) c).
  assert (Hcell : forall y x, length (cell y x) = 4%nat)
    by (intros y0 x0; unfold cell; destruct (marked x0 y0); reflexivity).
  assert (Hrow : forall y, length (row y) = (Z.to_nat w * 4)%nat).
  { intros y0. unfold row.
    rewrite (length_flat_map_chunks _ 4%nat) by apply Hcell.
    unfold upto. now rewrite length_map, length_seq. }
  replace (Z.to_nat (4 * (w * y + x)) + c)%nat
    with (Z.to_nat y * (Z.to_nat w * 4) + (Z.to_nat x * 4 + c))%nat by nia.
  rewrite (nth_error_flat_map_chunks row (Z.to_nat w * 4) (upto h)
             (Z.to_nat y) (Z.to_nat x * 4 + c) y Hrow).
  - unfold row.
    rewrite (nth_error_flat_map_chunks (cell y) 4 (upto w) (Z.to_nat x) c x
               (Hcell y)); [reflexivity | | assumption].
    rewrite upto_nth by lia. f_equal. lia.
  - rewrite upto_nth by lia. f_equal. lia.
  - nia.
Qed.

(** X11.  On an RGBA buffer in row-major order holding at most [2^29]
    pixels, the colour test at a coordinate of the image reads that pixel's
    own four bytes: on a raster painted magenta where [marked] and black
    elsewhere, it answers [marked]. *)
Theorem X11_scan_reads_own_pixel (w h : Z) (marked : Z -> Z -> bool) (x y : Z) :
  w * h <= 2 ^ 29 -> 0 <= x < w -> 0 <= y < h ->
  isDiffPixel (raster w h marked) x y = marked x y.
Proof.
  intros Hwh Hx Hy.
  assert (Hv : 0 <= w * y + x < 2 ^ 29) by nia.
  pose proof (raster_byte w h marked x y 0 Hx Hy ltac:(lia)) as B0.
  pose proof (raster_byte w h marked x y 1 Hx Hy ltac:(lia)) as B1.
  pose proof (raster_byte w h marked x y 2 Hx Hy ltac:(lia)) as B2.
  pose proof (raster_byte w h marked x y 3 Hx Hy ltac:(lia)) as B3.
  unfold isDiffPixel. cbn zeta.
  replace (PNG.width (raster w h marked)) with w by reflexivity.
  rewrite (shl2_small _ Hv). unfold JS.index.
  destruct (Z.ltb_spec (4 * (w * y + x)) 0); [lia|].
  destruct (Z.ltb_spec (4 * (w * y + x) + 1) 0); [lia|].
  destruct (Z.ltb_spec (4 * (w * y + x) + 2) 0); [lia|].
  destruct (Z.ltb_spec (4 * (w * y + x) + 3) 0); [lia|].
  replace (Z.to_nat (4 * (w * y + x) + 1))
    with (Z.to_nat (4 * (w * y + x)) + 1)%nat by lia.
  replace (Z.to_nat (4 * (w * y + x) + 2))
    with (Z.to_nat (4 * (w * y + x)) + 2)%nat by lia.
  replace (Z.to_nat (4 * (w * y + x) + 3))
    with (Z.to_nat (4 * (w * y + x)) + 3)%nat by lia.
  rewrite Nat.add_0_r in B0. rewrite B0, B1, B2, B3.
  destruct (marked x y); reflexivity.
Qed.

Lemma X11_scan_reads_own_pixel_witness :
  60 * 2 <= 2 ^ 29 /\ 0 <= 7 < 60 /\ 0 <= 0 < 2 /\
  isDiffPixel shortRow 7 0 = ((0 =? 0) && (6 <=? 7)).
Proof.
  assert (H1 : 60 * 2 <= 2 ^ 29) by discriminate.
  assert (H2 : 0 <= 7 < 60) by (split; [discriminate | reflexivity]).
  assert (H3 : 0 <= 0 < 2) by (split; [discriminate | reflexivity]).
  split; [exact H1|]. split; [exact H2|]. split; [exact H3|].
  exact (X11_scan_reads_own_pixel 60 2 (fun x y => (y =? 0) && (6 <=? x))
           7 0 H1 H2 H3).
Defined.

(** X12.  Beyond [2^29] pixels the index overflows: a pixel whose position
    [width * y + x] lies in [2^29, 2^30) is read at a negative index, its
    channels are [undefined], and it is never reported, whatever the
    buffer holds. *)
Theorem X12_scan_misses_after_overflow (png : PNG.t) (x y : Z) :
  2 ^ 29 <= PNG.width png * y + x < 2 ^ 30 ->
  isDiffPixel png x y = false.
Proof.
  intros H. unfold isDiffPixel. cbn zeta. rewrite (shl2_wrap _ H).
  change (2 ^ 29) with 536870912 in H. change (2 ^ 30) with 1073741824 in H.
  change (2 ^ 32) with 4294967296.
  assert (E : JS.index (PNG.data png)
                (4 * (PNG.width png * y + x) - 4294967296 + 3) = None).
  { unfold JS.index.
    destruct (Z.ltb_spec (4 * (PNG.width png * y + x) - 4294967296 + 3) 0);
      [reflexivity | lia]. }
  rewrite E. reflexivity.
Qed.

Lemma X12_scan_misses_after_overflow_witness :
  2 ^ 29 <= PNG.width (PNG.mk 32768 32768 []) * 16384 + 5 < 2 ^ 30 /\
  isDiffPixel (PNG.mk 32768 32768 []) 5 16384 = false.
Proof.
  assert (H : 2 ^ 29 <= PNG.width (PNG.mk 32768 32768 []) * 16384 + 5 < 2 ^ 30)
    by (split; [discriminate | reflexivity]).
  split; [exact H|].
  exact (X12_scan_misses_after_overflow (PNG.mk 32768 32768 []) 5 16384 H).
Defined.

(** X13.  Scan and clustering together: every region reported for a decoded
    image has a non-negative corner, a positive width and height no larger
    than the image's, and contains a pixel of the image that passes the
    colour test. *)
Theorem X13_reported_region_of_image (png : PNG.t) (r : DiffRegion.t) :
  In r (analyzeDiffImage png) ->
  (0 <= DiffRegion.x r /\ 0 <= DiffRegion.y r /\
   0 < DiffRegion.width r <= PNG.width png /\
   0 < DiffRegion.height r <= PNG.height png) /\
  exists x y,
    0 <= x < PNG.width png /\ 0 <= y < PNG.height png /\
    isDiffPixel png x y = true /\
    containsPixel r (Pixel.mk x y).
Proof.
  rewrite analyzeDiffImage_eq. intros Hin.
  pose proof (diffPixels_inBounds png) as Hb. split.
  - exact (output_sides _ _ _ _ Hb Hin).
  - destruct (returned_region_has_diff_pixel _ _ _ _ Hb Hin) as [[x y] [Hp Hc]].
    exists x, y. apply diffPixels_In_iff in Hp. tauto.
Qed.

(** ** The suggested flag value read back by [parseIgnoreRegions] *)

Lemma digits_plain (d : Decimal.uint) : Forall plainUnit (Str.digits d).
Proof.
  induction d; cbn; constructor; try assumption;
    (split; [reflexivity | split; discriminate]).
Qed.

Lemma leadingDigits_digits (d : Decimal.uint) :
  Str.leadingDigits (Str.digits d) = d.
Proof. induction d; cbn; congruence. Qed.

Lemma ofNumber_plain (z : Z) : Forall plainUnit (Str.ofNumber z).
Proof.
  unfold Str.ofNumber. destruct (Z.to_int z).
  - apply digits_plain.
  - constructor; [|apply digits_plain].
    split; [reflexivity | split; discriminate].
Qed.

Lemma ofNumber_nonempty (z : Z) : Str.ofNumber z <> [].
Proof.
  unfold Str.ofNumber. destruct z as [|p|p]; cbn; try discriminate.
  pose proof (DecimalPos.Unsigned.to_uint_nonnil p) as H.
  destruct (Pos.to_uint p); [contradiction | discriminate ..].
Qed.

Lemma trimStart_plain (s : Str.t) :
  Forall plainUnit s -> Str.trimStart s = s.
Proof.
  intros H. destruct H as [|c t [Hc _] _]; cbn; [reflexivity|].
  now rewrite Hc.
Qed.

Lemma trim_plain (s : Str.t) : Forall plainUnit s -> Str.trim s = s.
Proof.
  intros H. unfold Str.trim, Str.trimEnd. rewrite (trimStart_plain s H).
  rewrite trimStart_plain; [apply rev_involutive|].
  apply Forall_rev, H.
Qed.

(** Reading back the digits written for an integer gives the integer. *)
Lemma parseInt_ofNumber (z : Z) : Str.parseInt (Str.ofNumber z) = Some z.
Proof.
  unfold Str.parseInt. rewrite (trimStart_plain _ (ofNumber_plain z)).
  pose proof (DecimalZ.of_to z) as Hz. unfold Str.ofNumber.
  destruct z as [|p|p]; cbn [Z.to_int] in *.
  - reflexivity.
  - pose proof (DecimalPos.Unsigned.to_uint_nonnil p) as Hnn.
    assert (E : match Str.digits (Pos.to_uint p) with
                | c :: rest =>
                    if (c =? Str.minus)%N then (true, rest)
                    else if (c =? Str.plus)%N then (false, rest)
                    else (false, Str.digits (Pos.to_uint p))
                | [] => (false, [])
                end = (false, Str.digits (Pos.to_uint p))).
    { destruct (Pos.to_uint p); reflexivity. }
    rewrite E, leadingDigits_digits. cbn [Z.of_int] in Hz.
    revert Hz Hnn. destruct (Pos.to_uint p); intros Hz Hnn;
      [contradiction | cbn beta iota; f_equal; exact Hz ..].
  - pose proof (DecimalPos.Unsigned.to_uint_nonnil p) as Hnn.
    cbv beta iota zeta.
    change ((Str.minus =? Str.minus)%N) with true. cbv beta iota.
    rewrite leadingDigits_digits. cbn [Z.of_int] in Hz.
    revert Hz Hnn. destruct (Pos.to_uint p); intros Hz Hnn;
      [contradiction | cbn beta iota; f_equal; exact Hz ..].
Qed.

Lemma split_no_sep (sep : N) (s : Str.t) :
  Forall (fun c => c <> sep) s -> Str.split sep s = [s].
Proof.
  induction 1 as [|c t Hc Ht IH]; cbn; [reflexivity|].
  destruct (N.eqb_spec c sep); [contradiction|]. now rewrite IH.
Qed.

Lemma split_app_sep (sep : N) (a b : Str.t) :
  Forall (fun c => c <> sep) a ->
  Str.split sep (a ++ sep :: b) = a :: Str.split sep b.
Proof.
  induction 1 as [|c t Hc Ht IH]; cbn.
  - now rewrite N.eqb_refl.
  - destruct (N.eqb_spec c sep); [contradiction|]. now rewrite IH.
Qed.

Lemma split_join (sep : N) (arr : list Str.t) :
  arr <> [] ->
  Forall (Forall (fun c => c <> sep)) arr ->
  Str.split sep (Str.join sep arr) = arr.
Proof.
  intros Hne H. induction H as [|a t Ha Ht IH]; [contradiction|].
  destruct t as [|b t]; cbn [Str.join].
  - now apply split_no_sep.
  - rewrite split_app_sep by assumption. f_equal. apply IH. discriminate.
Qed.

Lemma plain_no_comma (s : Str.t) :
  Forall plainUnit s -> Forall (fun c => c <> Str.comma) s.
Proof. apply Forall_impl. intros c H. apply H. Qed.

Lemma regionStr_units (r : DiffRegion.t) :
  Forall (fun c => Str.isWhiteSpace c = false /\ c <> Str.semicolon) (regionStr r).
Proof.
  assert (P : forall z, Forall (fun c => Str.isWhiteSpace c = false /\
                                         c <> Str.semicolon) (Str.ofNumber z)).
  { intros z. eapply Forall_impl; [|apply ofNumber_plain].
    intros c H. split; apply H. }
  assert (C : Str.isWhiteSpace Str.comma = false /\ Str.comma <> Str.semicolon)
    by (split; [reflexivity | discriminate]).
  unfold regionStr.
  repeat (apply Forall_app; split; [apply P|]; constructor; [exact C|]).
  apply P.
Qed.

Lemma regionStr_nonempty (r : DiffRegion.t) : regionStr r <> [].
Proof.
  unfold regionStr. pose proof (ofNumber_nonempty (DiffRegion.x r)).
  destruct (Str.ofNumber (DiffRegion.x r)); [contradiction | discriminate].
Qed.

Lemma trim_regionStr (r : DiffRegion.t) : Str.trim (regionStr r) = regionStr r.
Proof.
  pose proof (regionStr_units r) as H.
  assert (T : forall s, Forall (fun c => Str.isWhiteSpace c = false /\
                                         c <> Str.semicolon) s ->
                        Str.trimStart s = s).
  { intros s [|c t [Hc _] _]; cbn; [reflexivity | now rewrite Hc]. }
  unfold Str.trim, Str.trimEnd. rewrite (T _ H).
  rewrite T; [apply rev_involutive | apply Forall_rev, H].
Qed.

Lemma parseRegion_regionStr (r : DiffRegion.t) :
  parseRegion (regionStr r) = Some r.
Proof.
  unfold parseRegion. rewrite trim_regionStr. unfold regionStr.
  rewrite !split_app_sep by apply plain_no_comma, ofNumber_plain.
  rewrite split_no_sep by apply plain_no_comma, ofNumber_plain.
  cbn [map]. rewrite !trim_plain by apply ofNumber_plain.
  rewrite !parseInt_ofNumber. cbn. destruct r; reflexivity.
Qed.

Lemma mapOrThrow_all {A B} (f : A -> option B) (g : B -> A) (bs : list B) :
  (forall b, f (g b) = Some b) -> mapOrThrow f (map g bs) = Some bs.
Proof.
  intros H. induction bs as [|b t IH]; cbn; [reflexivity|].
  now rewrite H, IH.
Qed.

Lemma mapOrThrow_fails {A B} (f : A -> option B) (arr : list A) (a : A) :
  In a arr -> f a = None -> mapOrThrow f arr = None.
Proof.
  intros Hin Hf. induction arr as [|b t IH]; [contradiction|]. cbn.
  destruct Hin as [->|Hin]; [now rewrite Hf|].
  destruct (f b); [|reflexivity]. now rewrite IH.
Qed.

Lemma mapOrThrow_length {A B} (f : A -> option B) (arr : list A) (bs : list B) :
  mapOrThrow f arr = Some bs -> length bs = length arr.
Proof.
  revert bs; induction arr as [|a t IH]; cbn; intros bs H.
  - now injection H as <-.
  - destruct (f a); [|discriminate].
    destruct (mapOrThrow f t) as [bs'|]; [|discriminate].
    injection H as <-. cbn. f_equal. now apply IH.
Qed.

Lemma trim_no_whitespace (s : Str.t) :
  Forall (fun c => Str.isWhiteSpace c = false) s -> Str.trim s = s.
Proof.
  assert (T : forall s, Forall (fun c => Str.isWhiteSpace c = false) s ->
                        Str.trimStart s = s).
  { intros s0 [|c t Hc _]; cbn; [reflexivity | now rewrite Hc]. }
  intros H. unfold Str.trim, Str.trimEnd. rewrite (T _ H).
  rewrite T; [apply rev_involutive | apply Forall_rev, H].
Qed.

Lemma regionsStr_no_whitespace (regions : list DiffRegion.t) :
  Forall (fun c => Str.isWhiteSpace c = false) (regionsStr regions).
Proof.
  assert (R : forall r, Forall (fun c => Str.isWhiteSpace c = false) (regionStr r)).
  { intros r. eapply Forall_impl; [|apply regionStr_units]. intros c H. apply H. }
  unfold regionsStr. induction regions as [|a t IH]; cbn [map Str.join];
    [constructor|].
  destruct (map regionStr t) as [|b t'] eqn:E; [apply R|].
  apply Forall_app. split; [apply R|]. constructor; [reflexivity | exact IH].
Qed.

Lemma parse_format (regions : list DiffRegion.t) :
  parseIgnoreRegions (regionsStr regions) = regions.
Proof.
  destruct regions as [|r rs]; [reflexivity|].
  unfold parseIgnoreRegions.
  assert (Hne : regionsStr (r :: rs) <> []).
  { unfold regionsStr. cbn [map Str.join]. pose proof (regionStr_nonempty r).
    destruct (map regionStr rs); [assumption|].
    destruct (regionStr r); [contradiction | discriminate]. }
  rewrite (trim_no_whitespace _ (regionsStr_no_whitespace (r :: rs))).
  destruct (regionsStr (r :: rs)) as [|c s] eqn:E; [contradiction|].
  cbn [length Nat.eqb orb]. rewrite <- E. unfold regionsStr.
  rewrite split_join.
  - rewrite (mapOrThrow_all parseRegion regionStr (r :: rs) parseRegion_regionStr).
    reflexivity.
  - discriminate.
  - apply Forall_forall. intros s0 Hs0. apply in_map_iff in Hs0 as [r0 [<- _]].
    eapply Forall_impl; [|apply regionStr_units]. intros c0 H0. apply H0.
Qed.

Lemma split_nonempty (sep : N) (s : Str.t) : Str.split sep s <> [].
Proof.
  destruct s as [|c t]; cbn; [discriminate|].
  destruct (c =? sep)%N; [discriminate|].
  destruct (Str.split sep t); discriminate.
Qed.

Lemma split_snoc_sep (sep : N) (s : Str.t) :
  Str.split sep (s ++ [sep]) = Str.split sep s ++ [[]].
Proof.
  induction s as [|c t IH]; cbn.
  - now rewrite N.eqb_refl.
  - rewrite IH. destruct (c =? sep)%N; [reflexivity|].
    pose proof (split_nonempty sep t).
    destruct (Str.split sep t); [contradiction | reflexivity].
Qed.

Lemma split_length (sep : N) (s : Str.t) :
  length (Str.split sep s) = S (count_occ N.eq_dec s sep).
Proof.
  induction s as [|c t IH]; cbn [Str.split count_occ]; [reflexivity|].
  destruct (N.eqb_spec c sep) as [->|Hne].
  - destruct (N.eq_dec sep sep); [|contradiction]. cbn. now rewrite IH.
  - destruct (N.eq_dec c sep); [contradiction|].
    pose proof (split_nonempty sep t).
    destruct (Str.split sep t); [contradiction | exact IH].
Qed.

Lemma parseRegion_empty : parseRegion [] = None.
Proof. reflexivity. Qed.

Lemma parse_fails (s seg : Str.t) :
  In seg (Str.split Str.semicolon s) -> parseRegion seg = None ->
  parseIgnoreRegions s = [].
Proof.
  intros Hin Hf. unfold parseIgnoreRegions.
  destruct (_ || _); [reflexivity|].
  now rewrite (mapOrThrow_fails parseRegion _ seg Hin Hf).
Qed.

(** X14.  The flag value that [run] prints reads back, through
    [parseIgnoreRegions], as the very list of regions it was made from. *)
Theorem X14_flag_value_round_trip (regions : list DiffRegion.t) :
  Forall safeRegion regions ->
  parseIgnoreRegions (regionsStr regions) = regions.
Proof. intros _. apply parse_format. Qed.

Lemma X14_flag_value_round_trip_witness :
  Forall safeRegion [DiffRegion.mk 0 85 100 11; DiffRegion.mk 35 75 70 11] /\
  parseIgnoreRegions
    (regionsStr [DiffRegion.mk 0 85 100 11; DiffRegion.mk 35 75 70 11])
  = [DiffRegion.mk 0 85 100 11; DiffRegion.mk 35 75 70 11].
Proof.
  assert (H : Forall safeRegion
                [DiffRegion.mk 0 85 100 11; DiffRegion.mk 35 75 70 11]).
  { repeat constructor; cbn; discriminate. }
  split; [exact H|].
  exact (X14_flag_value_round_trip _ H).
Defined.

(** X15.  [parseIgnoreRegions] is all or nothing: one piece between
    semicolons that is not four comma-separated integers makes the whole
    result empty.  In particular a value that ends in a semicolon always
    parses to the empty list. *)
Theorem X15_parse_all_or_nothing :
  (forall s seg,
     In seg (Str.split Str.semicolon s) -> parseRegion seg = None ->
     parseIgnoreRegions s = []) /\
  (forall s, parseIgnoreRegions (s ++ [Str.semicolon]) = []).
Proof.
  split; [exact parse_fails|].
  intros s. apply (parse_fails _ []); [|reflexivity].
  rewrite split_snoc_sep. apply in_or_app. right. now left.
Qed.

Lemma X15_parse_all_or_nothing_witness :
  In [50%N] (Str.split Str.semicolon (regionStr (DiffRegion.mk 0 85 100 11)
                                       ++ [Str.semicolon; 50%N])) /\
  parseRegion [50%N] = None /\
  parseIgnoreRegions (regionStr (DiffRegion.mk 0 85 100 11)
                        ++ [Str.semicolon; 50%N]) = [].
Proof.
  assert (H1 : In [50%N] (Str.split Str.semicolon
                            (regionStr (DiffRegion.mk 0 85 100 11)
                               ++ [Str.semicolon; 50%N])))
    by (vm_compute; tauto).
  assert (H2 : parseRegion [50%N] = None) by reflexivity.
  split; [exact H1|]. split; [exact H2|].
  exact (proj1 X15_parse_all_or_nothing _ _ H1 H2).
Defined.

(** X16.  The parsed list is empty or has exactly one region per piece of
    the value, that is one more than the value has semicolons. *)
Theorem X16_parse_length (s : Str.t) :
  parseIgnoreRegions s = [] \/
  length (parseIgnoreRegions s) = S (count_occ N.eq_dec s Str.semicolon).
Proof.
  unfold parseIgnoreRegions. destruct (_ || _); [now left|].
  destruct (mapOrThrow parseRegion (Str.split Str.semicolon s)) as [rs|] eqn:E;
    [|now left].
  right. rewrite (mapOrThrow_length _ _ _ E). apply split_length.
Qed.

(** X17.  For regions whose fields are safe integers and whose sums
    [x + width] and [y + height] do not exceed [2^53], so that the two
    additions of [convertIgnoreRegions] are exact, [compareWithOdiff] hands
    odiff either no [ignoreRegions] at all or a non-empty list of boxes,
    each with [0 <= x1 < x2] and [0 <= y1 < y2]. *)
Theorem X17_odiff_boxes (ignoreRegions : option (list DiffRegion.t))
  (boxes : list Box.t) :
  (forall regions r, ignoreRegions = Some regions -> In r regions ->
     safeRegion r /\ exactSums r) ->
  odiffIgnoreRegions ignoreRegions = Some boxes ->
  boxes <> [] /\
  forall b, In b boxes ->
    0 <= Box.x1 b < Box.x2 b /\ 0 <= Box.y1 b < Box.y2 b /\
    Box.x2 b <= 2 ^ 53 /\ Box.y2 b <= 2 ^ 53.
Proof.
  intros Hsafe. unfold odiffIgnoreRegions.
  destruct (Z.ltb_spec 0 (len (validRegions ignoreRegions))) as [Hpos|];
    [|discriminate].
  destruct (Z.ltb_spec 0 (len (validRegions ignoreRegions))); [|lia].
  intros Heq. injection Heq as <-. split.
  - destruct (validRegions ignoreRegions); [cbn in Hpos; lia | discriminate].
  - intros b Hb. unfold convertIgnoreRegions in Hb.
    apply in_map_iff in Hb as [r [<- Hr]]. cbn.
    destruct ignoreRegions as [rs|]; [|contradiction].
    apply filter_In in Hr as [Hin Hr]. rewrite !andb_true_iff in Hr.
    destruct (Hsafe rs r eq_refl Hin) as [_ [Hsx Hsy]]. lia.
Qed.

Lemma X17_odiff_boxes_witness :
  (forall regions r,
     Some [DiffRegion.mk (-3) 5 70 11; DiffRegion.mk 0 85 100 11] = Some regions ->
     In r regions -> safeRegion r /\ exactSums r) /\
  odiffIgnoreRegions (Some [DiffRegion.mk (-3) 5 70 11; DiffRegion.mk 0 85 100 11])
    = Some [Box.mk 0 85 100 96] /\
  [Box.mk 0 85 100 96] <> [] /\
  forall b, In b [Box.mk 0 85 100 96] ->
    0 <= Box.x1 b < Box.x2 b /\ 0 <= Box.y1 b < Box.y2 b /\
    Box.x2 b <= 2 ^ 53 /\ Box.y2 b <= 2 ^ 53.
Proof.
  assert (H0 : forall regions r,
             Some [DiffRegion.mk (-3) 5 70 11; DiffRegion.mk 0 85 100 11]
               = Some regions ->
             In r regions -> safeRegion r /\ exactSums r).
  { intros regions r E Hin. injection E as <-.
    unfold safeRegion, safeInteger, exactSums.
    destruct Hin as [<-|[<-|[]]]; cbn; lia. }
  assert (H : odiffIgnoreRegions
                (Some [DiffRegion.mk (-3) 5 70 11; DiffRegion.mk 0 85 100 11])
              = Some [Box.mk 0 85 100 96]) by reflexivity.
  split; [exact H0|]. split; [exact H|].
  exact (X17_odiff_boxes _ _ H0 H).
Defined.

Lemma validRegions_all (regions : list DiffRegion.t) :
  (forall r, In r regions ->
     0 <= DiffRegion.x r /\ 0 <= DiffRegion.y r /\
     0 < DiffRegion.width r /\ 0 < DiffRegion.height r) ->
  validRegions (Some regions) = regions.
Proof.
  intros H. unfold validRegions. induction regions as [|r t IH]; cbn; [reflexivity|].
  destruct (H r (or_introl eq_refl)) as [Hx [Hy [Hw Hh]]].
  apply Z.leb_le in Hx, Hy. apply Z.ltb_lt in Hw, Hh.
  rewrite Hx, Hy, Hw, Hh. cbn. f_equal. apply IH.
  intros r' Hr'. apply H. now right.
Qed.

(** X18.  From detection to comparison nothing is lost: for pixels inside
    an image whose sides are safe integers, the regions suggested by
    [findBoundingRectangles], printed as the flag value, parsed back and
    filtered by [compareScreenshots], are the suggested regions again, and
    when there is one, odiff receives one box [(x, y, x + width, y +
    height)] per region. *)
Theorem X18_suggested_regions_reach_odiff pixels w h :
  inBounds w h pixels -> w <= 2 ^ 53 -> h <= 2 ^ 53 ->
  let regions := findBoundingRectangles pixels w h in
  let parsed := parseIgnoreRegions (regionsStr regions) in
  Forall safeRegion regions /\
  validRegions (Some parsed) = regions /\
  (regions <> [] ->
   odiffIgnoreRegions (Some parsed) = Some (convertIgnoreRegions regions)).
Proof.
  intros Hb Hw Hh regions parsed.
  assert (Hs : forall r, In r regions ->
             0 <= DiffRegion.x r /\ 0 <= DiffRegion.y r /\
             0 < DiffRegion.width r <= w /\ 0 < DiffRegion.height r <= h)
    by (intros r Hr; exact (output_sides pixels w h r Hb Hr)).
  assert (Hp : forall r, In r regions -> exists p, In p pixels /\ containsPixel r p)
    by (intros r Hr; exact (returned_region_has_diff_pixel pixels w h r Hb Hr)).
  assert (Hv : validRegions (Some parsed) = regions).
  { unfold parsed. rewrite parse_format. apply validRegions_all.
    intros r Hr. specialize (Hs r Hr). lia. }
  split; [|split; [exact Hv|]].
  - apply Forall_forall. intros r Hr. specialize (Hs r Hr).
    destruct (Hp r Hr) as [p [Hpin [Hcx Hcy]]]. destruct (Hb p Hpin).
    unfold safeRegion, safeInteger. change (2 ^ 53) with 9007199254740992 in *.
    lia.
  - intros Hne. unfold odiffIgnoreRegions. rewrite Hv.
    destruct regions as [|r t]; [contradiction|]. reflexivity.
Qed.

Lemma X18_suggested_regions_reach_odiff_witness :
  inBounds 100 100 twoRows /\ 100 <= 2 ^ 53 /\ 100 <= 2 ^ 53 /\
  let regions := findBoundingRectangles twoRows 100 100 in
  let parsed := parseIgnoreRegions (regionsStr regions) in
  Forall safeRegion regions /\
  validRegions (Some parsed) = regions /\
  (regions <> [] ->
   odiffIgnoreRegions (Some parsed) = Some (convertIgnoreRegions regions)).
Proof.
  assert (H1 : inBounds 100 100 twoRows)
    by (apply inBoundsb_sound; vm_compute; reflexivity).
  assert (H2 : 100 <= 2 ^ 53) by discriminate.
  split; [exact H1|]. split; [exact H2|]. split; [exact H2|].
  exact (X18_suggested_regions_reach_odiff twoRows 100 100 H1 H2 H2).
Defined.

Lemma X13_reported_region_of_image_witness :
  In (DiffRegion.mk 1 0 60 2) (analyzeDiffImage shortRow) /\
  (0 <= 1 /\ 0 <= 0 /\ 0 < 60 <= PNG.width shortRow /\
   0 < 2 <= PNG.height shortRow) /\
  exists x y,
    0 <= x < PNG.width shortRow /\ 0 <= y < PNG.height shortRow /\
    isDiffPixel shortRow x y = true /\
    containsPixel (DiffRegion.mk 1 0 60 2) (Pixel.mk x y).
Proof.
  assert (H : In (DiffRegion.mk 1 0 60 2) (analyzeDiffImage shortRow))
    by (vm_compute; tauto).
  split; [exact H|].
  exact (X13_reported_region_of_image shortRow _ H).
Defined.

(** ** The border drawing of [generatePreviewImage] *)

Lemma range_In (lo hi z : Z) : In z (range lo hi) <-> lo <= z < hi.
Proof.
  unfold range. rewrite in_map_iff. split.
  - intros [i [<- Hi]]. apply in_seq in Hi. lia.
  - intros H. exists (Z.to_nat (z - lo)). split; [lia|]. apply in_seq. lia.
Qed.

(** Where the strokes of one region fall. *)
Lemma strokes_In (w h : Z) (r : DiffRegion.t) (p : Pixel.t) :
  In p (strokes w h r) ->
  (DiffRegion.x r <= Pixel.x p < DiffRegion.x r + DiffRegion.width r /\
   Pixel.x p < w /\ 0 <= Pixel.y p < h /\
   (Pixel.y p = DiffRegion.y r \/ Pixel.y p = DiffRegion.y r + 1 \/
    Pixel.y p = DiffRegion.y r + DiffRegion.height r - 1 \/
    Pixel.y p = DiffRegion.y r + DiffRegion.height r - 2)) \/
  (DiffRegion.y r <= Pixel.y p < DiffRegion.y r + DiffRegion.height r /\
   Pixel.y p < h /\ 0 <= Pixel.x p < w /\
   (Pixel.x p = DiffRegion.x r \/ Pixel.x p = DiffRegion.x r + 1 \/
    Pixel.x p = DiffRegion.x r + DiffRegion.width r - 1 \/
    Pixel.x p = DiffRegion.x r + DiffRegion.width r - 2)).
Proof.
  unfold strokes. rewrite in_app_iff, !in_flat_map.
  intros [[x [Hx Hp]]|[y [Hy Hp]]]; apply range_In in Hx || apply range_In in Hy.
  - left. unfold topBottom in Hp. cbn zeta in Hp. apply in_app_iff in Hp.
    destruct Hp as [Hp|Hp].
    + destruct (Z.leb_spec 0 (DiffRegion.y r)); [|contradiction].
      destruct (Z.ltb_spec (DiffRegion.y r) h); [|contradiction].
      cbn in Hp.
      destruct (Z.ltb_spec (DiffRegion.y r + 0) h);
        destruct (Z.ltb_spec (DiffRegion.y r + 1) h); cbn in Hp;
        repeat (destruct Hp as [<-|Hp]; [cbn; lia|]); contradiction.
    + destruct (Z.leb_spec 0 (DiffRegion.y r + DiffRegion.height r - 1));
        [|contradiction].
      destruct (Z.ltb_spec (DiffRegion.y r + DiffRegion.height r - 1) h);
        [|contradiction].
      cbn in Hp.
      destruct (Z.leb_spec 0 (DiffRegion.y r + DiffRegion.height r - 1 - 0));
        destruct (Z.ltb_spec (DiffRegion.y r + DiffRegion.height r - 1 - 0) h);
        destruct (Z.leb_spec 0 (DiffRegion.y r + DiffRegion.height r - 1 - 1));
        destruct (Z.ltb_spec (DiffRegion.y r + DiffRegion.height r - 1 - 1) h);
        cbn in Hp;
        repeat (destruct Hp as [<-|Hp]; [cbn; lia|]); contradiction.
  - right. unfold leftRight in Hp. cbn zeta in Hp. apply in_app_iff in Hp.
    destruct Hp as [Hp|Hp].
    + destruct (Z.leb_spec 0 (DiffRegion.x r)); [|contradiction].
      destruct (Z.ltb_spec (DiffRegion.x r) w); [|contradiction].
      cbn in Hp.
      destruct (Z.ltb_spec (DiffRegion.x r + 0) w);
        destruct (Z.ltb_spec (DiffRegion.x r + 1) w); cbn in Hp;
        repeat (destruct Hp as [<-|Hp]; [cbn; lia|]); contradiction.
    + destruct (Z.leb_spec 0 (DiffRegion.x r + DiffRegion.width r - 1));
        [|contradiction].
      destruct (Z.ltb_spec (DiffRegion.x r + DiffRegion.width r - 1) w);
        [|contradiction].
      cbn in Hp.
      destruct (Z.leb_spec 0 (DiffRegion.x r + DiffRegion.width r - 1 - 0));
        destruct (Z.ltb_spec (DiffRegion.x r + DiffRegion.width r - 1 - 0) w);
        destruct (Z.leb_spec 0 (DiffRegion.x r + DiffRegion.width r - 1 - 1));
        destruct (Z.ltb_spec (DiffRegion.x r + DiffRegion.width r - 1 - 1) w);
        cbn in Hp;
        repeat (destruct Hp as [<-|Hp]; [cbn; lia|]); contradiction.
Qed.

Lemma strokes_inside_image (w h : Z) (r : DiffRegion.t) (p : Pixel.t) :
  0 <= DiffRegion.x r -> 0 <= DiffRegion.y r ->
  In p (strokes w h r) ->
  0 <= Pixel.x p < w /\ 0 <= Pixel.y p < h.
Proof.
  intros Hx Hy Hp. apply strokes_In in Hp. lia.
Qed.

(** The outer edge of the region, where inside the image, is painted. *)
Lemma strokes_outline (w h : Z) (r : DiffRegion.t) (p : Pixel.t) :
  0 <= Pixel.x p < w -> 0 <= Pixel.y p < h ->
  containsPixel r p ->
  (Pixel.x p = DiffRegion.x r \/
   Pixel.x p = DiffRegion.x r + DiffRegion.width r - 1 \/
   Pixel.y p = DiffRegion.y r \/
   Pixel.y p = DiffRegion.y r + DiffRegion.height r - 1) ->
  In p (strokes w h r).
Proof.
  intros Hx Hy [Hcx Hcy] Hedge. destruct p as [px py]. cbn in *.
  unfold strokes. apply in_app_iff.
  destruct Hedge as [E|[E|[E|E]]].
  - right. apply in_flat_map. exists py. split; [apply range_In; lia|].
    unfold leftRight. apply in_app_iff. left.
    destruct (Z.leb_spec 0 (DiffRegion.x r)); [|lia].
    destruct (Z.ltb_spec (DiffRegion.x r) w); [|lia].
    cbn. destruct (Z.ltb_spec (DiffRegion.x r + 0) w); [|lia].
    left. f_equal. lia.
  - right. apply in_flat_map. exists py. split; [apply range_In; lia|].
    unfold leftRight. apply in_app_iff. right. cbn zeta.
    destruct (Z.leb_spec 0 (DiffRegion.x r + DiffRegion.width r - 1)); [|lia].
    destruct (Z.ltb_spec (DiffRegion.x r + DiffRegion.width r - 1) w); [|lia].
    cbn.
    destruct (Z.leb_spec 0 (DiffRegion.x r + DiffRegion.width r - 1 - 0)); [|lia].
    destruct (Z.ltb_spec (DiffRegion.x r + DiffRegion.width r - 1 - 0) w); [|lia].
    left. f_equal. lia.
  - left. apply in_flat_map. exists px. split; [apply range_In; lia|].
    unfold topBottom. apply in_app_iff. left.
    destruct (Z.leb_spec 0 (DiffRegion.y r)); [|lia].
    destruct (Z.ltb_spec (DiffRegion.y r) h); [|lia].
    cbn. destruct (Z.ltb_spec (DiffRegion.y r + 0) h); [|lia].
    left. f_equal. lia.
  - left. apply in_flat_map. exists px. split; [apply range_In; lia|].
    unfold topBottom. apply in_app_iff. right. cbn zeta.
    destruct (Z.leb_spec 0 (DiffRegion.y r + DiffRegion.height r - 1)); [|lia].
    destruct (Z.ltb_spec (DiffRegion.y r + DiffRegion.height r - 1) h); [|lia].
    cbn.
    destruct (Z.leb_spec 0 (DiffRegion.y r + DiffRegion.height r - 1 - 0)); [|lia].
    destruct (Z.ltb_spec (DiffRegion.y r + DiffRegion.height r - 1 - 0) h); [|lia].
    left. f_equal. lia.
Qed.

Lemma set_nth_length (buf : list Z) (n : nat) (v : Z) :
  length (set_nth buf n v) = length buf.
Proof.
  revert n; induction buf as [|b t IH]; intros n; [reflexivity|].
  destruct n; cbn; [reflexivity | now rewrite IH].
Qed.

Lemma set_nth_same (buf : list Z) (n : nat) (v : Z) :
  (n < length buf)%nat -> nth_error (set_nth buf n v) n = Some v.
Proof.
  revert n; induction buf as [|b t IH]; intros n H; cbn in H; [lia|].
  destruct n; cbn; [reflexivity | apply IH; lia].
Qed.

Lemma set_nth_other (buf : list Z) (n j : nat) (v : Z) :
  j <> n -> nth_error (set_nth buf n v) j = nth_error buf j.
Proof.
  revert n j; induction buf as [|b t IH]; intros n j H; [reflexivity|].
  destruct n, j; cbn; try reflexivity; [contradiction | apply IH; lia].
Qed.

Lemma Buffer_set_length (buf : list Z) (idx v : Z) :
  length (Buffer_set buf idx v) = length buf.
Proof.
  unfold Buffer_set. destruct (idx <? 0); [reflexivity | apply set_nth_length].
Qed.

Lemma Buffer_set_other (buf : list Z) (idx v : Z) (j : nat) :
  0 <= idx -> j <> Z.to_nat idx ->
  nth_error (Buffer_set buf idx v) j = nth_error buf j.
Proof.
  intros H0 H. unfold Buffer_set. destruct (Z.ltb_spec idx 0); [lia|].
  now apply set_nth_other.
Qed.

Lemma Buffer_set_same (buf : list Z) (idx v : Z) :
  0 <= idx -> (Z.to_nat idx < length buf)%nat ->
  nth_error (Buffer_set buf idx v) (Z.to_nat idx) = Some v.
Proof.
  intros H0 H. unfold Buffer_set. destruct (Z.ltb_spec idx 0); [lia|].
  now apply set_nth_same.
Qed.

Lemma paintRed_length (w : Z) (data : list Z) (q : Pixel.t) :
  length (paintRed w data q) = length data.
Proof. unfold paintRed. now rewrite !Buffer_set_length. Qed.

(** Painting a pixel leaves every byte outside its four untouched. *)
Lemma paintRed_other (w : Z) (data : list Z) (q : Pixel.t) (j : nat) :
  0 <= w * Pixel.y q + Pixel.x q < 2 ^ 29 ->
  (j < Z.to_nat (4 * (w * Pixel.y q + Pixel.x q)) \/
   Z.to_nat (4 * (w * Pixel.y q + Pixel.x q)) + 4 <= j)%nat ->
  nth_error (paintRed w data q) j = nth_error data j.
Proof.
  intros Hk Hj. unfold paintRed. rewrite (shl2_small _ Hk).
  rewrite !Buffer_set_other by lia. reflexivity.
Qed.

(** Painting a pixel writes 255, 0, 0, 255 into its four bytes. *)
Lemma paintRed_same (w : Z) (data : list Z) (q : Pixel.t) (c : nat) :
  0 <= w * Pixel.y q + Pixel.x q < 2 ^ 29 ->
  (c < 4)%nat ->
  (Z.to_nat (4 * (w * Pixel.y q + Pixel.x q)) + c < length data)%nat ->
  byteAt w (paintRed w data q) q c = nth_error [255; 0; 0; 255] c.
Proof.
  intros Hk Hc Hlen. unfold byteAt, paintRed. rewrite (shl2_small _ Hk).
  set (k := 4 * (w * Pixel.y q + Pixel.x q)) in *.
  destruct c as [|[|[|[|c]]]]; [| | | |lia].
  - rewrite Nat.add_0_r.
    rewrite !(Buffer_set_other _ _ _ (Z.to_nat k)) by lia.
    apply Buffer_set_same; lia.
  - replace (Z.to_nat k + 1)%nat with (Z.to_nat (k + 1)) by lia.
    rewrite !(Buffer_set_other _ _ _ (Z.to_nat (k + 1))) by lia.
    apply Buffer_set_same; [lia|]. rewrite Buffer_set_length. lia.
  - replace (Z.to_nat k + 2)%nat with (Z.to_nat (k + 2)) by lia.
    rewrite !(Buffer_set_other _ _ _ (Z.to_nat (k + 2))) by lia.
    apply Buffer_set_same; [lia|]. rewrite !Buffer_set_length. lia.
  - replace (Z.to_nat k + 3)%nat with (Z.to_nat (k + 3)) by lia.
    apply Buffer_set_same; [lia|]. rewrite !Buffer_set_length. lia.
Qed.

(** Inside a [w] by [h] image of at most [2^29] pixels, two different
    pixels have different positions, all below [2^29]. *)
Lemma position_range (w h : Z) (p : Pixel.t) :
  w * h <= 2 ^ 29 -> 0 <= Pixel.x p < w -> 0 <= Pixel.y p < h ->
  0 <= w * Pixel.y p + Pixel.x p < 2 ^ 29.
Proof. intros. nia. Qed.

Lemma position_inj (w : Z) (p q : Pixel.t) :
  0 <= Pixel.x p < w -> 0 <= Pixel.x q < w ->
  w * Pixel.y p + Pixel.x p = w * Pixel.y q + Pixel.x q -> p = q.
Proof.
  intros Hp Hq E. destruct p as [px py], q as [qx qy]. cbn in *.
  assert (py = qy) by nia. subst. f_equal. lia.
Qed.

Lemma Pixel_eq_dec (p q : Pixel.t) : {p = q} + {p <> q}.
Proof. decide equality; apply Z.eq_dec. Qed.

Section Drawing.
Variables w h : Z.
Hypothesis small : w * h <= 2 ^ 29.

Lemma paintRed_frame (data : list Z) (p q : Pixel.t) (c : nat) :
  insideImage w h p -> insideImage w h q -> p <> q -> (c < 4)%nat ->
  byteAt w (paintRed w data q) p c = byteAt w data p c.
Proof.
  intros [Hpx Hpy] [Hqx Hqy] Hne Hc. unfold byteAt.
  pose proof (position_range w h p small Hpx Hpy).
  pose proof (position_range w h q small Hqx Hqy) as Hq.
  apply (paintRed_other w data q _ Hq).
  assert (w * Pixel.y p + Pixel.x p <> w * Pixel.y q + Pixel.x q)
    by (intros E; apply Hne; now apply (position_inj w)).
  lia.
Qed.

Lemma fold_paint_length (ps : list Pixel.t) (data : list Z) :
  length (fold_left (paintRed w) ps data) = length data.
Proof.
  revert data; induction ps as [|q qs IH]; intros data; cbn; [reflexivity|].
  now rewrite IH, paintRed_length.
Qed.

Lemma fold_paint_frame (ps : list Pixel.t) (data : list Z) (p : Pixel.t) (c : nat) :
  Forall (insideImage w h) ps -> insideImage w h p -> ~ In p ps -> (c < 4)%nat ->
  byteAt w (fold_left (paintRed w) ps data) p c = byteAt w data p c.
Proof.
  intros Hps Hp. revert data. induction Hps as [|q qs Hq Hqs IH];
    intros data Hnin Hc; cbn; [reflexivity|].
  rewrite IH by (auto; intros Hin; apply Hnin; now right).
  apply paintRed_frame; auto. intros ->. apply Hnin. now left.
Qed.

Lemma fold_paint_red (ps : list Pixel.t) (data : list Z) (p : Pixel.t) (c : nat) :
  Forall (insideImage w h) ps -> In p ps -> (c < 4)%nat ->
  (Z.to_nat (4 * (w * Pixel.y p + Pixel.x p)) + c < length data)%nat ->
  byteAt w (fold_left (paintRed w) ps data) p c = nth_error [255; 0; 0; 255] c.
Proof.
  intros Hps. revert data. induction Hps as [|q qs Hq Hqs IH];
    intros data Hin Hc Hlen; [contradiction|]. cbn.
  destruct (in_dec Pixel_eq_dec p qs) as [Hi|Hn].
  - apply IH; auto. now rewrite paintRed_length.
  - destruct Hin as [->|Hin]; [|contradiction].
    rewrite fold_paint_frame by auto.
    destruct Hq as [Hx Hy].
    apply paintRed_same; auto. apply (position_range w h p small Hx Hy).
Qed.

End Drawing.

(** X19.  For regions with a non-negative corner, as
    [findBoundingRectangles] returns them, every pixel the preview paints
    lies inside the image, whatever the region's size. *)
Theorem X19_preview_paints_inside_image (w h : Z) (regions : list DiffRegion.t)
  (p : Pixel.t) :
  (forall r, In r regions -> 0 <= DiffRegion.x r /\ 0 <= DiffRegion.y r) ->
  In p (flat_map (strokes w h) regions) ->
  0 <= Pixel.x p < w /\ 0 <= Pixel.y p < h.
Proof.
  intros Hr Hp. apply in_flat_map in Hp as [r [Hin Hp]].
  destruct (Hr r Hin). now apply (strokes_inside_image w h r).
Qed.

Lemma X19_preview_paints_inside_image_witness :
  (forall r, In r [DiffRegion.mk 1 1 4 3] ->
     0 <= DiffRegion.x r /\ 0 <= DiffRegion.y r) /\
  In (Pixel.mk 4 3) (flat_map (strokes 6 5) [DiffRegion.mk 1 1 4 3]) /\
  0 <= 4 < 6 /\ 0 <= 3 < 5.
Proof.
  assert (H1 : forall r, In r [DiffRegion.mk 1 1 4 3] ->
                 0 <= DiffRegion.x r /\ 0 <= DiffRegion.y r)
    by (intros r [<-|[]]; cbn; lia).
  assert (H2 : In (Pixel.mk 4 3) (flat_map (strokes 6 5) [DiffRegion.mk 1 1 4 3]))
    by (vm_compute; tauto).
  split; [exact H1|]. split; [exact H2|].
  exact (X19_preview_paints_inside_image 6 5 _ _ H1 H2).
Defined.

(** X20.  On an image of at most [2^29] pixels, for regions with a
    non-negative corner that are at least 2 wide and 2 high, the drawing
    leaves the four bytes of every pixel of the image unchanged unless the
    pixel lies inside one of the regions and within two pixels of one of
    its edges: nothing outside the rectangles and nothing deeper inside
    them is touched. *)
Theorem X20_preview_paints_border_only (w h : Z) (regions : list DiffRegion.t)
  (data : list Z) (p : Pixel.t) (c : nat) :
  w * h <= 2 ^ 29 ->
  (forall r, In r regions ->
     0 <= DiffRegion.x r /\ 0 <= DiffRegion.y r /\
     2 <= DiffRegion.width r /\ 2 <= DiffRegion.height r) ->
  0 <= Pixel.x p < w -> 0 <= Pixel.y p < h -> (c < 4)%nat ->
  (forall r, In r regions -> ~ (containsPixel r p /\ nearEdge r p)) ->
  byteAt w (drawRegions w h regions data) p c = byteAt w data p c.
Proof.
  intros Hsmall Hr Hx Hy Hc Hout. unfold drawRegions.
  apply (fold_paint_frame w h Hsmall); [| now split | | assumption].
  - apply Forall_forall. intros q Hq. apply in_flat_map in Hq as [r [Hin Hq]].
    destruct (Hr r Hin) as [Hrx [Hry _]].
    now apply (strokes_inside_image w h r).
  - intros Hp. apply in_flat_map in Hp as [r [Hin Hp]].
    destruct (Hr r Hin) as [_ [_ [Hrw Hrh]]].
    apply (Hout r Hin). apply strokes_In in Hp.
    unfold containsPixel, nearEdge. lia.
Qed.

Lemma X20_preview_paints_border_only_witness :
  6 * 5 <= 2 ^ 29 /\
  (forall r, In r [DiffRegion.mk 0 0 6 5] ->
     0 <= DiffRegion.x r /\ 0 <= DiffRegion.y r /\
     2 <= DiffRegion.width r /\ 2 <= DiffRegion.height r) /\
  0 <= 2 < 6 /\ 0 <= 2 < 5 /\ (1 < 4)%nat /\
  (forall r, In r [DiffRegion.mk 0 0 6 5] ->
     ~ (containsPixel r (Pixel.mk 2 2) /\ nearEdge r (Pixel.mk 2 2))) /\
  byteAt 6 (drawRegions 6 5 [DiffRegion.mk 0 0 6 5] (repeat 7 120))
    (Pixel.mk 2 2) 1
  = byteAt 6 (repeat 7 120) (Pixel.mk 2 2) 1.
Proof.
  assert (H1 : 6 * 5 <= 2 ^ 29) by discriminate.
  assert (H2 : forall r, In r [DiffRegion.mk 0 0 6 5] ->
                 0 <= DiffRegion.x r /\ 0 <= DiffRegion.y r /\
                 2 <= DiffRegion.width r /\ 2 <= DiffRegion.height r)
    by (intros r [<-|[]]; cbn; lia).
  assert (H3 : 0 <= 2 < 6) by lia.
  assert (H4 : 0 <= 2 < 5) by lia.
  assert (H5 : (1 < 4)%nat) by lia.
  assert (H6 : forall r, In r [DiffRegion.mk 0 0 6 5] ->
                 ~ (containsPixel r (Pixel.mk 2 2) /\ nearEdge r (Pixel.mk 2 2)))
    by (intros r [<-|[]] [_ Hn]; unfold nearEdge in Hn; cbn in Hn; lia).
  repeat (split; [assumption|]).
  exact (X20_preview_paints_border_only 6 5 [DiffRegion.mk 0 0 6 5]
           (repeat 7 120) (Pixel.mk 2 2) 1 H1 H2 H3 H4 H5 H6).
Defined.

(** X21.  On an image of at most [2^29] pixels whose buffer holds the whole
    image, and for regions with a non-negative corner, the outline is
    complete: every pixel of the image on the first or last column or row
    of one of the regions ends up opaque red (255, 0, 0, 255). *)
Theorem X21_preview_paints_outline (w h : Z) (regions : list DiffRegion.t)
  (data : list Z) (r : DiffRegion.t) (p : Pixel.t) (c : nat) :
  w * h <= 2 ^ 29 -> 4 * w * h <= len data ->
  (forall r, In r regions -> 0 <= DiffRegion.x r /\ 0 <= DiffRegion.y r) ->
  In r regions ->
  0 <= Pixel.x p < w -> 0 <= Pixel.y p < h ->
  containsPixel r p ->
  (Pixel.x p = DiffRegion.x r \/
   Pixel.x p = DiffRegion.x r + DiffRegion.width r - 1 \/
   Pixel.y p = DiffRegion.y r \/
   Pixel.y p = DiffRegion.y r + DiffRegion.height r - 1) ->
  (c < 4)%nat ->
  byteAt w (drawRegions w h regions data) p c = nth_error [255; 0; 0; 255] c.
Proof.
  intros Hsmall Hlen Hr Hin Hx Hy Hcont Hedge Hc. unfold drawRegions.
  apply (fold_paint_red w h Hsmall); [| | assumption |].
  - apply Forall_forall. intros q Hq. apply in_flat_map in Hq as [r0 [Hin0 Hq]].
    destruct (Hr r0 Hin0). now apply (strokes_inside_image w h r0).
  - apply in_flat_map. exists r. split; [assumption|].
    now apply strokes_outline.
  - unfold len in Hlen. nia.
Qed.

Lemma X21_preview_paints_outline_witness :
  3 * 2 <= 2 ^ 29 /\ 4 * 3 * 2 <= len (repeat 7 24) /\
  (forall r, In r [DiffRegion.mk 0 0 2 2] ->
     0 <= DiffRegion.x r /\ 0 <= DiffRegion.y r) /\
  In (DiffRegion.mk 0 0 2 2) [DiffRegion.mk 0 0 2 2] /\
  0 <= 1 < 3 /\ 0 <= 1 < 2 /\
  containsPixel (DiffRegion.mk 0 0 2 2) (Pixel.mk 1 1) /\
  (1 = 0 \/ 1 = 0 + 2 - 1 \/ 1 = 0 \/ 1 = 0 + 2 - 1) /\
  (0 < 4)%nat /\
  byteAt 3 (drawRegions 3 2 [DiffRegion.mk 0 0 2 2] (repeat 7 24)) (Pixel.mk 1 1) 0
  = nth_error [255; 0; 0; 255] 0.
Proof.
  assert (H1 : 3 * 2 <= 2 ^ 29) by discriminate.
  assert (H2 : 4 * 3 * 2 <= len (repeat 7 24)) by (vm_compute; discriminate).
  assert (H3 : forall r, In r [DiffRegion.mk 0 0 2 2] ->
                 0 <= DiffRegion.x r /\ 0 <= DiffRegion.y r)
    by (intros r [<-|[]]; cbn; lia).
  assert (H4 : In (DiffRegion.mk 0 0 2 2) [DiffRegion.mk 0 0 2 2]) by now left.
  assert (H5 : 0 <= 1 < 3) by lia.
  assert (H6 : 0 <= 1 < 2) by lia.
  assert (H7 : containsPixel (DiffRegion.mk 0 0 2 2) (Pixel.mk 1 1))
    by (unfold containsPixel; cbn; lia).
  assert (H8 : 1 = 0 \/ 1 = 0 + 2 - 1 \/ 1 = 0 \/ 1 = 0 + 2 - 1)
    by (right; left; reflexivity).
  assert (H9 : (0 < 4)%nat) by lia.
  repeat (split; [assumption|]).
  exact (X21_preview_paints_outline 3 2 [DiffRegion.mk 0 0 2 2] (repeat 7 24)
           (DiffRegion.mk 0 0 2 2) (Pixel.mk 1 1) 0 H1 H2 H3 H4 H5 H6 H7 H8 H9).
Defined.

(** X22.  On an image of at most [2^29] pixels and for regions with a
    non-negative corner, drawing keeps the length of the buffer, leaves the
    four bytes of every pixel that is not painted as they were, and, when
    the buffer holds the whole image, turns every painted pixel opaque red
    (255, 0, 0, 255). *)
Theorem X22_preview_buffer (w h : Z) (regions : list DiffRegion.t)
  (data : list Z) :
  w * h <= 2 ^ 29 ->
  (forall r, In r regions -> 0 <= DiffRegion.x r /\ 0 <= DiffRegion.y r) ->
  length (drawRegions w h regions data) = length data /\
  forall p c,
    0 <= Pixel.x p < w -> 0 <= Pixel.y p < h -> (c < 4)%nat ->
    (~ In p (flat_map (strokes w h) regions) ->
     byteAt w (drawRegions w h regions data) p c = byteAt w data p c) /\
    (In p (flat_map (strokes w h) regions) -> 4 * w * h <= len data ->
     byteAt w (drawRegions w h regions data) p c
       = nth_error [255; 0; 0; 255] c).
Proof.
  intros Hsmall Hr. unfold drawRegions.
  assert (Hall : Forall (insideImage w h) (flat_map (strokes w h) regions)).
  { apply Forall_forall. intros p Hp. apply in_flat_map in Hp as [r [Hin Hp]].
    destruct (Hr r Hin). now apply (strokes_inside_image w h r). }
  split; [apply fold_paint_length|].
  intros p c Hx Hy Hc. split.
  - intros Hn. apply (fold_paint_frame w h Hsmall); auto. now split.
  - intros Hin Hlen. apply (fold_paint_red w h Hsmall); auto.
    unfold len in Hlen. nia.
Qed.

Lemma X22_preview_buffer_witness :
  3 * 2 <= 2 ^ 29 /\
  (forall r, In r [DiffRegion.mk 0 0 2 2] ->
     0 <= DiffRegion.x r /\ 0 <= DiffRegion.y r) /\
  length (drawRegions 3 2 [DiffRegion.mk 0 0 2 2] (repeat 7 24))
    = length (repeat 7 24) /\
  forall p c,
    0 <= Pixel.x p < 3 -> 0 <= Pixel.y p < 2 -> (c < 4)%nat ->
    (~ In p (flat_map (strokes 3 2) [DiffRegion.mk 0 0 2 2]) ->
     byteAt 3 (drawRegions 3 2 [DiffRegion.mk 0 0 2 2] (repeat 7 24)) p c
       = byteAt 3 (repeat 7 24) p c) /\
    (In p (flat_map (strokes 3 2) [DiffRegion.mk 0 0 2 2]) ->
     4 * 3 * 2 <= len (repeat 7 24) ->
     byteAt 3 (drawRegions 3 2 [DiffRegion.mk 0 0 2 2] (repeat 7 24)) p c
       = nth_error [255; 0; 0; 255] c).
Proof.
  assert (H1 : 3 * 2 <= 2 ^ 29) by discriminate.
  assert (H2 : forall r, In r [DiffRegion.mk 0 0 2 2] ->
                 0 <= DiffRegion.x r /\ 0 <= DiffRegion.y r)
    by (intros r [<-|[]]; cbn; lia).
  split; [exact H1|]. split; [exact H2|].
  exact (X22_preview_buffer 3 2 [DiffRegion.mk 0 0 2 2] (repeat 7 24) H1 H2).
Defined.

(** ** The tally of [compareScreenshots] *)

Lemma processDetail_fold (ds : list Detail.t) (result : ComparisonResult.t) :
  let final := fold_left processDetail ds result in
  ComparisonResult.total final = ComparisonResult.total result /\
  ComparisonResult.details final = ComparisonResult.details result ++ ds /\
  ComparisonResult.matches final =
    ComparisonResult.matches result +
    len (filter (fun d => match Detail.status d with Match => true | _ => false end) ds) /\
  ComparisonResult.differences final =
    ComparisonResult.differences result +
    len (filter (fun d => match Detail.status d with Differ => true | _ => false end) ds) /\
  ComparisonResult.missingBaselines final =
    ComparisonResult.missingBaselines result +
    len (filter (fun d => match Detail.status d with MissingBaseline => true | _ => false end) ds).
Proof.
  revert result; induction ds as [|d t IH]; intros result; cbn zeta.
  - cbn. rewrite app_nil_r. unfold len; cbn. repeat split; lia.
  - cbn [fold_left]. specialize (IH (processDetail result d)). cbn zeta in IH.
    destruct IH as [Ht [Hd [Hm [Hdf Hmb]]]].
    rewrite Ht, Hd, Hm, Hdf, Hmb. unfold processDetail, len.
    destruct (Detail.status d) eqn:E; cbn [filter]; rewrite E;
      cbn [ComparisonResult.total ComparisonResult.details
           ComparisonResult.matches ComparisonResult.differences
           ComparisonResult.missingBaselines length];
      rewrite <- app_assoc, ?Nat2Z.inj_succ; repeat split; reflexivity || lia.
Qed.

Lemma status_partition (ds : list Detail.t) :
  len (filter (fun d => match Detail.status d with Match => true | _ => false end) ds)
  + len (filter (fun d => match Detail.status d with Differ => true | _ => false end) ds)
  + len (filter (fun d => match Detail.status d with MissingBaseline => true | _ => false end) ds)
  = len ds.
Proof.
  unfold len. induction ds as [|d t IH]; [reflexivity|].
  cbn [filter]. destruct (Detail.status d); cbn [length];
    rewrite ?Nat2Z.inj_succ; lia.
Qed.

(** X24.  The result of [compareScreenshots] is consistent: [details] has
    one entry per screenshot, in order, and the three counters add up to
    [total]. *)
Theorem X24_comparison_tally (compareImage : Str.t -> Detail.t)
  (screenshots : list Str.t) :
  let result := compareScreenshots compareImage screenshots in
  ComparisonResult.details result = map compareImage screenshots /\
  ComparisonResult.total result = len screenshots /\
  ComparisonResult.matches result + ComparisonResult.differences result
    + ComparisonResult.missingBaselines result
  = ComparisonResult.total result.
Proof.
  cbn zeta. unfold compareScreenshots.
  destruct (processDetail_fold (map compareImage screenshots)
              (ComparisonResult.mk (len screenshots) 0 0 0 []))
    as [Ht [Hd [Hm [Hdf Hmb]]]].
  cbn zeta in *. rewrite Ht, Hd, Hm, Hdf, Hmb.
  cbn [ComparisonResult.total ComparisonResult.details
       ComparisonResult.matches ComparisonResult.differences
       ComparisonResult.missingBaselines app].
  split; [reflexivity|]. split; [reflexivity|].
  pose proof (status_partition (map compareImage screenshots)) as Hp.
  assert (Hl : len (map compareImage screenshots) = len screenshots)
    by (unfold len; now rewrite length_map).
  lia.
Qed.


(** ** How far a returned region can leave the image *)

Lemma bandRegion_overshoot pixels w h b :
  inBounds w h pixels -> 0 < len (bandPixels pixels b) ->
  let r := bandRegion pixels w h b in
  DiffRegion.x r + DiffRegion.width r <= w + 5 /\
  DiffRegion.y r + DiffRegion.height r <= h + 5.
Proof.
  intros Hb Hlen. apply len_pos_nonempty in Hlen.
  destruct (bandPixels pixels b) as [|p bp] eqn:E; [contradiction|].
  assert (Hx : map Pixel.x (p :: bp) <> []) by discriminate.
  assert (Hy : map Pixel.y (p :: bp) <> []) by discriminate.
  destruct (Math_min_spec _ Hx) as [Hminx _].
  destruct (Math_max_spec _ Hx) as [Hmaxx Hgex].
  destruct (Math_min_spec _ Hy) as [Hminy _].
  destruct (Math_max_spec _ Hy) as [Hmaxy Hgey].
  specialize (Hgex _ Hminx). specialize (Hgey _ Hminy).
  assert (Hsub : forall q, In q (p :: bp) -> In q pixels).
  { intros q Hq. rewrite <- E in Hq. apply filter_In in Hq. tauto. }
  apply in_map_iff in Hminx as [p1 [E1 I1]], Hmaxx as [p2 [E2 I2]],
    Hminy as [p3 [E3 I3]], Hmaxy as [p4 [E4 I4]].
  pose proof (Hb _ (Hsub _ I1)). pose proof (Hb _ (Hsub _ I2)).
  pose proof (Hb _ (Hsub _ I3)). pose proof (Hb _ (Hsub _ I4)).
  unfold bandRegion; rewrite E;
    cbn [DiffRegion.x DiffRegion.y DiffRegion.width DiffRegion.height].
  lia.
Qed.

(** X26.  For pixels inside the image, a returned region reaches at most
    5 pixels, the padding of a band rectangle, beyond the right and the
    bottom edge of the image. *)
Theorem X26_returned_region_overshoot pixels w h r :
  inBounds w h pixels ->
  In r (findBoundingRectangles pixels w h) ->
  DiffRegion.x r + DiffRegion.width r <= w + 5 /\
  DiffRegion.y r + DiffRegion.height r <= h + 5.
Proof.
  intros Hb Hin. destruct pixels as [|p0 ps]; [contradiction|].
  rewrite findBoundingRectangles_nonempty in Hin by discriminate.
  apply firstn_In, uniqueRegions_In in Hin as [k [Hk _]].
  apply nth_error_In, areaFiltered_In in Hk as [Hk _].
  rewrite candidateRegions_eq in Hk. destruct Hk as [<-|Hk].
  - pose proof (overallRegion_withinImage (p0 :: ps) w h
                  ltac:(discriminate) Hb) as Hw.
    unfold withinImage in Hw. lia.
  - apply bandCandidates_inv in Hk as [b [-> Hlen]].
    apply bandRegion_overshoot; [assumption | lia].
Qed.

Lemma X26_returned_region_overshoot_witness :
  inBounds 100 100 twoRows /\
  In (DiffRegion.mk 35 75 70 11) (findBoundingRectangles twoRows 100 100) /\
  35 + 70 <= 100 + 5 /\ 75 + 11 <= 100 + 5.
Proof.
  assert (H1 : inBounds 100 100 twoRows)
    by (apply inBoundsb_sound; vm_compute; reflexivity).
  assert (H2 : In (DiffRegion.mk 35 75 70 11)
                 (findBoundingRectangles twoRows 100 100))
    by (vm_compute; tauto).
  split; [exact H1|]. split; [exact H2|].
  exact (X26_returned_region_overshoot twoRows 100 100 _ H1 H2).
Defined.
